(** * A transparent price cache: the model and its properties

    The package [sample1] wraps a slow, fallible price service behind a
    cache with a time-to-live.  Two revisions of the package are modelled:

    - [Cache]: the finished implementation, listed in src/README.md
      (lines 22-114): entries carry the instant they were fetched, expired
      entries are evicted on access, and the batch lookup hands back the
      prices it collected together with the first error;
    - [Starter]: src/cache.go, the revision the finished one grew from: it
      stores bare prices and leaves the age check as a TODO.

    Effects are explicit: a [World] holds the cache, the private state of the
    upstream service, the wall clock and a trace of the operations performed
    on the store and on the upstream service. *)

From Stdlib Require Import ZArith String List Permutation PrimFloat.
From stdpp Require Import base option list gmap strings.
Import ListNotations.

Local Open Scope string_scope.
Local Open Scope list_scope.
Local Open Scope nat_scope.

(** ** Values shared by both revisions *)

(** Go's [float64]: IEEE 754 binary64, carried around but never computed on. *)
Definition float64 : Type := PrimFloat.float.

(** [time.Time] stripped of its location and monotonic reading (the code
    only uses [time.Now().UTC()], and [UTC] drops the monotonic reading): an
    instant counted in nanoseconds of wall-clock time, which may also jump
    backwards.  [time.Duration] is a signed count of nanoseconds.  The
    arithmetic is exact: the bounds of the two machine representations,
    hundreds of years away from any clock reading, are not modelled. *)
Definition Time : Type := Z.
Definition Duration : Type := Z.

Definition Time_Add (t : Time) (d : Duration) : Time := (t + d)%Z.
Definition Time_Before (t u : Time) : bool := (t <? u)%Z.

(** Go's [error] interface, by the two dynamic types that the standard
    library builds: a plain message ([errors.New], and [fmt.Errorf] without
    [%w]) and a message wrapped around another error ([fmt.Errorf] with
    [%w]). *)
Inductive error : Type :=
| errorString (s : string)
| wrapError (msg : string) (err : error).

(** [e.Error()]. *)
Definition Error (e : error) : string :=
  match e with
  | errorString s => s
  | wrapError msg _ => msg
  end.

(** [errors.Unwrap(e)]. *)
Definition Unwrap (e : error) : option error :=
  match e with
  | errorString _ => None
  | wrapError _ err => Some err
  end.

(** [errors.New(text)]. *)
Definition errors_New (text : string) : error := errorString text.

(** [fmt.Errorf(prefix + "%v", s)] for a string [s]: the format holds no
    [%w], so the result is [errors.New] of the formatted text. *)
Definition fmt_Errorf_v (prefix s : string) : error :=
  errors_New (String.append prefix s).

(** [strings.Contains(hay, needle)]. *)
Fixpoint contains (needle hay : string) : bool :=
  String.prefix needle hay ||
  match hay with
  | EmptyString => false
  | String _ hay' => contains needle hay'
  end.

(** A small state monad over an arbitrary world. *)
Definition ST (W A : Type) : Type := W → A * W.

Definition st_ret {W A} (a : A) : ST W A := λ w, (a, w).
Definition st_bind {W A B} (m : ST W A) (k : A → ST W B) : ST W B :=
  λ w, let '(a, w') := m w in k a w'.

Notation "'let*' p := m 'in' k" := (st_bind m (λ p, k))
  (at level 10, p pattern, m at level 100, k at level 200).
Notation "'run' m 'then' k" := (st_bind m (λ _, k))
  (at level 10, m at level 100, k at level 200).

(** ** The finished implementation (src/README.md, lines 22-114) *)

Module Cache.

(** [PriceCacheEntry]: a price and the instant it was fetched. *)
Record PriceCacheEntry : Type :=
  { price : float64; timestamp : Time }.

(** What a [sync.Map] slot may hold: an [interface{}] value.  Only the
    dynamic types that matter to the type assertion are told apart. *)
Inductive any : Type :=
| any_nil
| any_PriceCacheEntry (e : PriceCacheEntry)
| any_float64 (f : float64)
| any_string (s : string).

(** [v.(PriceCacheEntry)] in its comma-ok form: the zero entry and [false]
    when the dynamic type differs. *)
Definition assert_PriceCacheEntry (v : any) : PriceCacheEntry * bool :=
  match v with
  | any_PriceCacheEntry e => (e, true)
  | _ => ({| price := 0%float; timestamp := 0%Z |}, false)
  end.

Section WithService.

(** The private state of the upstream service (call counters, price tables,
    whatever it keeps). *)
Context {ServiceState : Type}.

(** The [PriceService] interface: one method, which may fail and may change
    the service's own state. *)
Record PriceService : Type :=
  { PriceService_GetPriceFor :
      string → ServiceState → (float64 * option error) * ServiceState }.

Record TransparentCache : Type :=
  { actualPriceService : PriceService;
    maxAge : Duration;
    prices : gmap string any }.

Definition NewTransparentCache (actualPriceService : PriceService)
    (maxAge : Duration) : TransparentCache :=
  {| actualPriceService := actualPriceService;
     maxAge := maxAge;
     prices := ∅ |}.

(** Operations on the store and on the upstream service, in the order they
    happen. *)
Inductive Event : Type :=
| EvLoad (key : string)
| EvDelete (key : string)
| EvStore (key : string) (value : any)
| EvCall (itemCode : string).

Record World : Type :=
  { cache : TransparentCache;
    upstream : ServiceState;
    clock : Time;
    trace : list Event }.

Definition set_prices (m : gmap string any) (w : World) : World :=
  {| cache := {| actualPriceService := actualPriceService (cache w);
                 maxAge := maxAge (cache w);
                 prices := m |};
     upstream := upstream w;
     clock := clock w;
     trace := trace w |}.

Definition set_upstream (s : ServiceState) (w : World) : World :=
  {| cache := cache w; upstream := s; clock := clock w; trace := trace w |}.

Definition set_clock (t : Time) (w : World) : World :=
  {| cache := cache w; upstream := upstream w; clock := t; trace := trace w |}.

Definition emit (e : Event) (w : World) : World :=
  {| cache := cache w; upstream := upstream w; clock := clock w;
     trace := trace w ++ [e] |}.

Definition M : Type → Type := ST World.

(** [time.Now().UTC()]. *)
Definition time_Now : M Time := λ w, (clock w, w).

(** [c.maxAge]. *)
Definition get_maxAge : M Duration := λ w, (maxAge (cache w), w).

(** [c.prices.Load(key)]. *)
Definition prices_Load (key : string) : M (any * bool) := λ w,
  (match prices (cache w) !! key with
   | Some v => (v, true)
   | None => (any_nil, false)
   end, emit (EvLoad key) w).

(** [c.prices.Delete(key)]. *)
Definition prices_Delete (key : string) : M unit := λ w,
  (tt, emit (EvDelete key) (set_prices (delete key (prices (cache w))) w)).

(** [c.prices.Store(key, value)]. *)
Definition prices_Store (key : string) (value : any) : M unit := λ w,
  (tt, emit (EvStore key value)
         (set_prices (<[key := value]> (prices (cache w))) w)).

(** [c.actualPriceService.GetPriceFor(itemCode)]. *)
Definition actualPriceService_GetPriceFor (itemCode : string)
    : M (float64 * option error) := λ w,
  let '(r, s) :=
    PriceService_GetPriceFor (actualPriceService (cache w)) itemCode
      (upstream w) in
  (r, emit (EvCall itemCode) (set_upstream s w)).

(** The tail of [GetPriceFor], reached when the store holds no valid entry:
    ask the upstream service and store what it answers. *)
Definition fetch (itemCode : string) (now : Time)
    : M (float64 * option error) :=
  let* (price, err) := actualPriceService_GetPriceFor itemCode in
  match err with
  | Some e =>
      st_ret (0%float,
              Some (fmt_Errorf_v "getting price from service : " (Error e)))
  | None =>
      let priceCacheEntry := {| price := price; timestamp := now |} in
      run prices_Store itemCode (any_PriceCacheEntry priceCacheEntry) then
      st_ret (Cache.price priceCacheEntry, None)
  end.

Definition GetPriceFor (itemCode : string) : M (float64 * option error) :=
  let* now := time_Now in
  let* (retrievedPriceCacheEntry, ok) := prices_Load itemCode in
  if ok then
    let '(priceCacheEntry, castSuccessful) :=
      assert_PriceCacheEntry retrievedPriceCacheEntry in
    if negb castSuccessful then
      st_ret (0%float, Some (errors_New "error when casting"))
    else
      let* maxAge := get_maxAge in
      let expDate := Time_Add (timestamp priceCacheEntry) maxAge in
      if Time_Before now expDate then
        st_ret (price (assert_PriceCacheEntry retrievedPriceCacheEntry).1,
                None)
      else
        (* priceCacheEntry is expired; time to evict it from cache *)
        run prices_Delete itemCode then
        fetch itemCode now
  else
    fetch itemCode now.

(** *** The batch lookup: worker goroutines under an arbitrary scheduler

    [GetPricesFor] starts one goroutine per item code.  Each goroutine runs
    [GetPriceFor] and then either appends the price to [results] under the
    mutex or hands its error to the [errgroup.Group].  A goroutine is cut at
    every access to shared state: the clock, the [sync.Map] (whose
    operations are atomic), the upstream service, [results] and the group's
    error slot. *)
Inductive Worker : Type :=
| AtNow (ic : string)
| AtLoad (ic : string) (now : Time)
| AtDelete (ic : string) (now : Time)
| AtCall (ic : string) (now : Time)
| AtStore (ic : string) (now : Time) (price : float64)
| AtReturn (r : float64 * option error)
| Done (r : float64 * option error).

(** One atomic action of [GetPriceFor] from the given point. *)
Definition GetPriceFor_step (wk : Worker) : M Worker :=
  match wk with
  | AtNow ic =>
      let* now := time_Now in
      st_ret (AtLoad ic now)
  | AtLoad ic now =>
      let* (retrievedPriceCacheEntry, ok) := prices_Load ic in
      if ok then
        let '(priceCacheEntry, castSuccessful) :=
          assert_PriceCacheEntry retrievedPriceCacheEntry in
        if negb castSuccessful then
          st_ret (AtReturn (0%float, Some (errors_New "error when casting")))
        else
          let* maxAge := get_maxAge in
          let expDate := Time_Add (timestamp priceCacheEntry) maxAge in
          if Time_Before now expDate then
            st_ret (AtReturn
                      (price (assert_PriceCacheEntry
                                retrievedPriceCacheEntry).1, None))
          else st_ret (AtDelete ic now)
      else st_ret (AtCall ic now)
  | AtDelete ic now =>
      run prices_Delete ic then
      st_ret (AtCall ic now)
  | AtCall ic now =>
      let* (price, err) := actualPriceService_GetPriceFor ic in
      match err with
      | Some e =>
          st_ret (AtReturn
                    (0%float,
                     Some (fmt_Errorf_v "getting price from service : "
                             (Error e))))
      | None => st_ret (AtStore ic now price)
      end
  | AtStore ic now price =>
      let priceCacheEntry := {| price := price; timestamp := now |} in
      run prices_Store ic (any_PriceCacheEntry priceCacheEntry) then
      st_ret (AtReturn (Cache.price priceCacheEntry, None))
  | AtReturn r => st_ret (AtReturn r)
  | Done r => st_ret (Done r)
  end.

(** The state of one [GetPricesFor] call: the world, the [results] slice,
    the group's error slot [g.err] (written once, by the first goroutine
    that fails), and the goroutines.  [observed] lists the errors in the
    order the group received them; it is bookkeeping, the code keeps only
    the first. *)
Record Group : Type :=
  { world : World;
    results : list float64;
    g_err : option error;
    observed : list error;
    workers : list Worker }.

(** What the scheduler and the environment may do next: let the wall clock
    move, or let goroutine [i] take its next atomic action. *)
Inductive Move : Type :=
| Tick (t : Time)
| Run (i : nat).

Definition move (g : Group) (mv : Move) : Group :=
  match mv with
  | Tick t =>
      {| world := set_clock t (world g); results := results g;
         g_err := g_err g; observed := observed g; workers := workers g |}
  | Run i =>
      match workers g !! i with
      | None => g
      | Some (Done _) => g
      | Some (AtReturn (price, None)) =>
          (* mu.Lock(); results = append(results, price); mu.Unlock() *)
          {| world := world g; results := results g ++ [price];
             g_err := g_err g; observed := observed g;
             workers := <[i := Done (price, None)]> (workers g) |}
      | Some (AtReturn (price, Some e)) =>
          (* g.errOnce.Do(func() { g.err = err }) *)
          {| world := world g; results := results g;
             g_err := match g_err g with
                      | None => Some e
                      | Some first => Some first
                      end;
             observed := observed g ++ [e];
             workers := <[i := Done (price, Some e)]> (workers g) |}
      | Some wk =>
          let '(wk', w') := GetPriceFor_step wk (world g) in
          {| world := w'; results := results g; g_err := g_err g;
             observed := observed g;
             workers := <[i := wk']> (workers g) |}
      end
  end.

(** The goroutines launched by the loop over [itemCodes]. *)
Definition launch (itemCodes : list string) (w : World) : Group :=
  {| world := w; results := []; g_err := None; observed := [];
     workers := AtNow <$> itemCodes |}.

Definition play (sched : list Move) (g : Group) : Group :=
  foldl move g sched.

Definition finished (wk : Worker) : option (float64 * option error) :=
  match wk with
  | Done r => Some r
  | _ => None
  end.

(** What each goroutine's [GetPriceFor] returned, once all have finished. *)
Definition outcomes (g : Group) : option (list (float64 * option error)) :=
  mapM finished (workers g).

(** [GetPricesFor] under the schedule [sched]: [None] while [g.Wait()] is
    still blocked at the end of the schedule. *)
Definition GetPricesFor (itemCodes : list string) (sched : list Move)
    (w : World) : option ((list float64 * option error) * World) :=
  let g := play sched (launch itemCodes w) in
  match outcomes g with
  | None => None
  | Some _ =>
      match g_err g with
      | Some err => Some ((results g, Some err), world g)
      | None => Some ((results g, None), world g)
      end
  end.

(** A sequence of uses of one cache instance: single lookups, batch
    lookups under some schedule, and time passing in between. *)
Inductive Call : Type :=
| CallGetPriceFor (itemCode : string)
| CallGetPricesFor (itemCodes : list string) (sched : list Move)
| Elapse (t : Time).

Definition perform (w : World) (c : Call) : World :=
  match c with
  | CallGetPriceFor itemCode => (GetPriceFor itemCode w).2
  | CallGetPricesFor itemCodes sched =>
      world (play sched (launch itemCodes w))
  | Elapse t => set_clock t w
  end.

(** The instance right after [NewTransparentCache]. *)
Definition fresh (svc : PriceService) (age : Duration) (s : ServiceState)
    (t : Time) : World :=
  {| cache := NewTransparentCache svc age; upstream := s; clock := t;
     trace := [] |}.

(** *** Vocabulary of the specification *)

(** An entry fetched at [timestamp e] is valid at [now] iff
    [now < timestamp e + maxAge]. *)
Definition valid (age : Duration) (now : Time) (e : PriceCacheEntry) : Prop :=
  (now < timestamp e + age)%Z.

(** What the upstream service answers for [k] in world [w]. *)
Definition upstream_answer (k : string) (w : World)
    : (float64 * option error) * ServiceState :=
  PriceService_GetPriceFor (actualPriceService (cache w)) k (upstream w).

(** The store holds nothing usable for [k]: no entry, or an expired one. *)
Definition stale_or_absent (k : string) (w : World) : Prop :=
  prices (cache w) !! k = None ∨
  ∃ e, prices (cache w) !! k = Some (any_PriceCacheEntry e) ∧
       ¬ valid (maxAge (cache w)) (clock w) e.

(** Every slot of the store holds a [PriceCacheEntry]. *)
Definition store_typed (m : gmap string any) : Prop :=
  ∀ k v, m !! k = Some v → ∃ e, v = any_PriceCacheEntry e.

(** The upstream calls recorded in a trace. *)
Definition upstream_calls (tr : list Event) : list string :=
  omap (λ ev, match ev with EvCall k => Some k | _ => None end) tr.

(** The prices of the lookups that succeeded, and the errors of those that
    failed. *)
Definition successes (rs : list (float64 * option error)) : list float64 :=
  omap (λ r, match r.2 with None => Some r.1 | Some _ => None end) rs.

Definition failures (rs : list (float64 * option error)) : list error :=
  omap snd rs.

(** The outcome of a goroutine that has finished. *)
Definition settled (wk : Worker) : list (float64 * option error) :=
  match wk with
  | Done r => [r]
  | _ => []
  end.

(** An upper bound on the atomic actions a goroutine still has to take. *)
Definition remaining (wk : Worker) : nat :=
  match wk with
  | AtNow _ => 6
  | AtLoad _ _ => 5
  | AtDelete _ _ => 4
  | AtCall _ _ => 3
  | AtStore _ _ _ => 2
  | AtReturn _ => 1
  | Done _ => 0
  end.

(** How often the schedule lets goroutine [i] run. *)
Fixpoint turns (i : nat) (sched : list Move) : nat :=
  match sched with
  | [] => 0
  | Run j :: sched' => (if Nat.eqb i j then 1 else 0) + turns i sched'
  | Tick _ :: sched' => turns i sched'
  end.

(** A schedule that runs the [n] goroutines one after the other, each to its
    end. *)
Definition one_by_one (n : nat) : list Move :=
  seq 0 n ≫= λ i, replicate 6 (Run i).

(** [n] consecutive atomic actions of one goroutine, nothing in between. *)
Fixpoint steps (n : nat) (wk : Worker) : M Worker :=
  match n with
  | O => st_ret wk
  | S n' =>
      let* wk' := GetPriceFor_step wk in
      steps n' wk'
  end.

(** The error of the type assertion in [GetPriceFor]. *)
Definition cast_error : error := errors_New "error when casting".

(** No trace of the type-assertion error: the store holds entries only, no
    goroutine carries that error, and it is not the group's error. *)
Definition worker_clean (wk : Worker) : Prop :=
  match wk with
  | AtReturn r | Done r => r.2 ≠ Some cast_error
  | _ => True
  end.

Definition group_clean (g : Group) : Prop :=
  store_typed (prices (cache (world g))) ∧
  Forall worker_clean (workers g) ∧
  g_err g ≠ Some cast_error.

(** The item code a goroutine is still working on inside [GetPriceFor]. *)
Definition worker_item (wk : Worker) : option string :=
  match wk with
  | AtNow ic | AtLoad ic _ | AtDelete ic _ | AtCall ic _ | AtStore ic _ _ =>
      Some ic
  | AtReturn _ | Done _ => None
  end.

(** Whether a goroutine has its upstream call still ahead of it. *)
Definition may_call (wk : Worker) : nat :=
  match wk with
  | AtNow _ | AtLoad _ _ | AtDelete _ _ | AtCall _ _ => 1
  | AtStore _ _ _ | AtReturn _ | Done _ => 0
  end.

(** The lookups of a batch done one after the other, in the order of the
    item codes: what the loop of [GetPricesFor] would compute without
    goroutines.  [res] and [first] are the prices and the first error
    gathered so far. *)
Fixpoint in_turn (itemCodes : list string) (res : list float64)
    (first : option error) (w : World)
    : (list float64 * option error) * World :=
  match itemCodes with
  | [] => ((res, first), w)
  | ic :: rest =>
      let '((price, err), w') := GetPriceFor ic w in
      match err with
      | None => in_turn rest (res ++ [price]) first w'
      | Some e =>
          in_turn rest res
            (match first with None => Some e | Some f => Some f end) w'
      end
  end.

(** The clock stays before [bound] throughout the schedule. *)
Definition quiet_before (bound : Time) (sched : list Move) : Prop :=
  Forall (λ mv, match mv with
                | Tick t => (t < bound)%Z
                | Run _ => True
                end) sched.

(** The lookup returned the price the store [m] holds for [ic], without
    error. *)
Definition served_from (m : gmap string any) (ic : string)
    (r : float64 * option error) : Prop :=
  r.2 = None ∧
  ∃ e, m !! ic = Some (any_PriceCacheEntry e) ∧ r.1 = price e.

(** The goroutine for item [ic] of a batch whose items are all validly
    cached in [m]: it is about to read the clock or to load, with an instant
    before [bound], or it has returned the cached price. *)
Definition hitting (m : gmap string any) (bound : Time) (ic : string)
    (wk : Worker) : Prop :=
  match wk with
  | AtNow ic' => ic' = ic
  | AtLoad ic' now => ic' = ic ∧ (now < bound)%Z
  | AtReturn r | Done r => served_from m ic r
  | AtDelete _ _ | AtCall _ _ | AtStore _ _ _ => False
  end.

(** Two goroutines that both load before either writes; then the second
    runs to its end, and the first resumes. *)
Definition second_overtakes : list Move :=
  [Run 0; Run 1; Run 0; Run 1; Run 1; Run 1; Run 1; Run 1; Run 0; Run 0;
   Run 0].

(** Two goroutines taking turns, action by action. *)
Definition alternating : list Move :=
  [Run 0; Run 1; Run 0; Run 1; Run 0; Run 1; Run 0; Run 1; Run 0; Run 1;
   Run 0; Run 1].

(** What ties the bookkeeping of a batch to its goroutines: [results] holds
    the prices of the goroutines that finished without error, [observed] the
    errors of those that finished with one, and [g.err] is the first error
    observed. *)
Definition consistent (g : Group) : Prop :=
  results g ≡ₚ successes (workers g ≫= settled) ∧
  observed g ≡ₚ failures (workers g ≫= settled) ∧
  g_err g = head (observed g).

End WithService.
End Cache.

(** ** The starting revision (src/cache.go)

    The store holds bare prices: there is no fetch time, and the age check
    is a TODO in [GetPriceFor].  The batch lookup probes the store itself
    before calling [GetPriceFor], stores the price a second time, and
    replaces the collected prices by an empty slice when it reports an
    error. *)

Module Starter.

Inductive any : Type :=
| any_nil
| any_float64 (f : float64)
| any_string (s : string).

(** [v.(float64)] without the comma-ok form: [None] stands for the panic of a
    failed assertion. *)
Definition assert_float64 (v : any) : option float64 :=
  match v with
  | any_float64 f => Some f
  | _ => None
  end.

Section WithService.

Context {ServiceState : Type}.

Record PriceService : Type :=
  { PriceService_GetPriceFor :
      string → ServiceState → (float64 * option error) * ServiceState }.

Record TransparentCache : Type :=
  { actualPriceService : PriceService;
    maxAge : Duration;
    prices : gmap string any }.

Definition NewTransparentCache (actualPriceService : PriceService)
    (maxAge : Duration) : TransparentCache :=
  {| actualPriceService := actualPriceService;
     maxAge := maxAge;
     prices := ∅ |}.

Inductive Event : Type :=
| EvLoad (key : string)
| EvStore (key : string) (value : any)
| EvCall (itemCode : string).

Record World : Type :=
  { cache : TransparentCache;
    upstream : ServiceState;
    trace : list Event }.

Definition set_prices (m : gmap string any) (w : World) : World :=
  {| cache := {| actualPriceService := actualPriceService (cache w);
                 maxAge := maxAge (cache w);
                 prices := m |};
     upstream := upstream w;
     trace := trace w |}.

Definition set_upstream (s : ServiceState) (w : World) : World :=
  {| cache := cache w; upstream := s; trace := trace w |}.

Definition emit (e : Event) (w : World) : World :=
  {| cache := cache w; upstream := upstream w; trace := trace w ++ [e] |}.

Definition M : Type → Type := ST World.

Definition prices_Load (key : string) : M (any * bool) := λ w,
  (match prices (cache w) !! key with
   | Some v => (v, true)
   | None => (any_nil, false)
   end, emit (EvLoad key) w).

Definition prices_Store (key : string) (value : any) : M unit := λ w,
  (tt, emit (EvStore key value)
         (set_prices (<[key := value]> (prices (cache w))) w)).

Definition actualPriceService_GetPriceFor (itemCode : string)
    : M (float64 * option error) := λ w,
  let '(r, s) :=
    PriceService_GetPriceFor (actualPriceService (cache w)) itemCode
      (upstream w) in
  (r, emit (EvCall itemCode) (set_upstream s w)).

(** How a call ends: with Go's pair of results, or in a panic. *)
Inductive Outcome : Type :=
| Returns (price : float64) (err : option error)
| Panics.

Definition panicked (r : Outcome) : bool :=
  match r with
  | Panics => true
  | Returns _ _ => false
  end.

Definition GetPriceFor (itemCode : string) : M Outcome :=
  let* (price, ok) := prices_Load itemCode in
  if ok then
    (* TODO: check that the price was retrieved less than "maxAge" ago! *)
    match assert_float64 price with
    | Some f => st_ret (Returns f None)
    | None => st_ret Panics
    end
  else
    let* (price, err) := actualPriceService_GetPriceFor itemCode in
    match err with
    | Some e =>
        st_ret (Returns 0%float
                  (Some (fmt_Errorf_v "getting price from service : "
                           (Error e))))
    | None =>
        run prices_Store itemCode (any_float64 price) then
        st_ret (Returns price None)
    end.

(** The goroutines of [GetPricesFor], cut at every access to shared state. *)
Inductive Worker : Type :=
| AtProbe (ic : string)
| AtLoad (ic : string)
| AtCall (ic : string)
| AtStore (ic : string) (price : float64)
| AtReturn (ic : string) (r : Outcome)
| AtStoreAgain (ic : string) (price : float64)
| AtAppend (price : float64)
| Done (r : Outcome).

Definition worker_step (wk : Worker) : M Worker :=
  match wk with
  | AtProbe ic =>
      let* (price, ok) := prices_Load ic in
      if ok then
        match assert_float64 price with
        | Some f => st_ret (AtAppend f)
        | None => st_ret (Done Panics)
        end
      else st_ret (AtLoad ic)
  | AtLoad ic =>
      let* (price, ok) := prices_Load ic in
      if ok then
        match assert_float64 price with
        | Some f => st_ret (AtReturn ic (Returns f None))
        | None => st_ret (Done Panics)
        end
      else st_ret (AtCall ic)
  | AtCall ic =>
      let* (price, err) := actualPriceService_GetPriceFor ic in
      match err with
      | Some e =>
          st_ret (AtReturn ic
                    (Returns 0%float
                       (Some (fmt_Errorf_v "getting price from service : "
                                (Error e)))))
      | None => st_ret (AtStore ic price)
      end
  | AtStore ic price =>
      run prices_Store ic (any_float64 price) then
      st_ret (AtReturn ic (Returns price None))
  | AtReturn ic (Returns price None) => st_ret (AtStoreAgain ic price)
  | AtReturn ic r => st_ret (AtReturn ic r)
  | AtStoreAgain ic price =>
      run prices_Store ic (any_float64 price) then
      st_ret (AtAppend price)
  | AtAppend price => st_ret (AtAppend price)
  | Done r => st_ret (Done r)
  end.

Record Group : Type :=
  { world : World;
    results : list float64;
    g_err : option error;
    workers : list Worker }.

Definition move (g : Group) (i : nat) : Group :=
  match workers g !! i with
  | None => g
  | Some (Done _) => g
  | Some (AtAppend price) =>
      {| world := world g; results := results g ++ [price];
         g_err := g_err g;
         workers := <[i := Done (Returns price None)]> (workers g) |}
  | Some (AtReturn ic (Returns price (Some e))) =>
      {| world := world g; results := results g;
         g_err := match g_err g with
                  | None => Some e
                  | Some first => Some first
                  end;
         workers := <[i := Done (Returns price (Some e))]> (workers g) |}
  | Some (AtReturn ic Panics) =>
      {| world := world g; results := results g; g_err := g_err g;
         workers := <[i := Done Panics]> (workers g) |}
  | Some wk =>
      let '(wk', w') := worker_step wk (world g) in
      {| world := w'; results := results g; g_err := g_err g;
         workers := <[i := wk']> (workers g) |}
  end.

Definition launch (itemCodes : list string) (w : World) : Group :=
  {| world := w; results := []; g_err := None;
     workers := AtProbe <$> itemCodes |}.

Definition play (sched : list nat) (g : Group) : Group :=
  foldl move g sched.

Definition finished (wk : Worker) : option Outcome :=
  match wk with
  | Done r => Some r
  | _ => None
  end.

Definition outcomes (g : Group) : option (list Outcome) :=
  mapM finished (workers g).

(** [GetPricesFor] under the schedule [sched]; [None] while [g.Wait()] is
    blocked, or when a goroutine panicked. *)
Definition GetPricesFor (itemCodes : list string) (sched : list nat)
    (w : World) : option ((list float64 * option error) * World) :=
  let g := play sched (launch itemCodes w) in
  match outcomes g with
  | None => None
  | Some rs =>
      if existsb panicked rs then None else
      match g_err g with
      | Some err => Some (([], Some err), world g)
      | None => Some ((results g, None), world g)
      end
  end.

(** A sequence of uses of one cache instance: single lookups and batch
    lookups under some schedule. *)
Inductive Call : Type :=
| CallGetPriceFor (itemCode : string)
| CallGetPricesFor (itemCodes : list string) (sched : list nat).

Definition perform (w : World) (c : Call) : World :=
  match c with
  | CallGetPriceFor itemCode => (GetPriceFor itemCode w).2
  | CallGetPricesFor itemCodes sched =>
      world (play sched (launch itemCodes w))
  end.

(** The instance right after [NewTransparentCache]. *)
Definition fresh (svc : PriceService) (age : Duration) (s : ServiceState)
    : World :=
  {| cache := NewTransparentCache svc age; upstream := s; trace := [] |}.

(** Every slot of the store holds a [float64]. *)
Definition store_floats (m : gmap string any) : Prop :=
  ∀ k v, m !! k = Some v → ∃ f, v = any_float64 f.

(** The goroutine is not on its way to a store for [k]. *)
Definition avoids (k : string) (wk : Worker) : Prop :=
  match wk with
  | AtLoad ic | AtCall ic | AtStore ic _ | AtReturn ic _
  | AtStoreAgain ic _ => ic ≠ k
  | AtProbe _ | AtAppend _ | Done _ => True
  end.

(** The goroutine has not panicked. *)
Definition sound (wk : Worker) : Prop :=
  match wk with
  | AtReturn _ Panics | Done Panics => False
  | _ => True
  end.

(** The outcome of a goroutine that has finished. *)
Definition settled (wk : Worker) : list Outcome :=
  match wk with
  | Done r => [r]
  | _ => []
  end.

(** The prices of the lookups that succeeded, and the errors of those that
    failed. *)
Definition prices_of (rs : list Outcome) : list float64 :=
  omap (λ r, match r with Returns p None => Some p | _ => None end) rs.

Definition errors_of (rs : list Outcome) : list error :=
  omap (λ r, match r with Returns _ (Some e) => Some e | _ => None end) rs.

(** What ties the bookkeeping of a batch to its goroutines. *)
Definition consistent (g : Group) : Prop :=
  results g ≡ₚ prices_of (workers g ≫= settled) ∧
  (g_err g = None → errors_of (workers g ≫= settled) = []) ∧
  (∀ e, g_err g = Some e → e ∈ errors_of (workers g ≫= settled)).

End WithService.
End Starter.

(** ** Concrete services and worlds used to exercise the statements *)

Module Demo.
Import Cache.

(** A service that counts its calls: it fails on ["bad"], answers 10 the
    first time it is called and 20 afterwards. *)
Definition stub : @PriceService nat :=
  {| PriceService_GetPriceFor := λ ic n,
       if String.eqb ic "bad"
       then ((0%float, Some (errors_New "boom")), S n)
       else if Nat.eqb n 0 then ((10%float, None), S n)
            else ((20%float, None), S n) |}.

(** A service that answers 10 once and is out of order afterwards. *)
Definition flaky : @PriceService nat :=
  {| PriceService_GetPriceFor := λ ic n,
       if Nat.eqb n 0 then ((10%float, None), S n)
       else ((0%float, Some (errors_New "boom")), S n) |}.

(** A new cache with [maxAge] 1000, at instant 5. *)
Definition cold : @World nat := fresh stub 1000%Z 0 5%Z.

(** The same cache after it fetched ["apple"] at instant 5, looked at again
    at instant [now]. *)
Definition warm (now : Time) : @World nat :=
  foldl perform cold [CallGetPriceFor "apple"; Elapse now].

(** Likewise in front of the flaky service. *)
Definition flaky_warm (now : Time) : @World nat :=
  foldl perform (fresh flaky 1000%Z 0 5%Z)
    [CallGetPriceFor "apple"; Elapse now].

(** Two goroutines interleaved, with the clock moving in between. *)
Definition interleaved : list Move :=
  [Run 1; Run 0; Run 0; Tick 7%Z; Run 1; Run 0; Run 1; Run 0; Run 1; Run 0;
   Run 0; Run 1].

(** A schedule in which the second goroutine reaches the upstream service
    first and the first one appends first. *)
Definition overtaking : list Move :=
  [Run 1; Run 0; Run 1; Tick 7%Z; Run 1; Run 0; Run 1; Run 0; Run 1; Run 0;
   Run 0].

(** A service that answers 10 twice and is out of order afterwards. *)
Definition tiring : @PriceService nat :=
  {| PriceService_GetPriceFor := λ ic n,
       if Nat.ltb n 2 then ((10%float, None), S n)
       else ((0%float, Some (errors_New "boom")), S n) |}.

(** A cache in front of it that fetched ["apple"] at instant 5, at instant
    [now]. *)
Definition tiring_warm (now : Time) : @World nat :=
  foldl perform (fresh tiring 1000%Z 0 5%Z)
    [CallGetPriceFor "apple"; Elapse now].

(** A cache built with a [maxAge] of zero, after it fetched ["apple"]. *)
Definition uncached : @World nat :=
  foldl perform (fresh stub 0%Z 0 5%Z) [CallGetPriceFor "apple"].

(** A cache whose slot for ["apple"] holds a string. *)
Definition poisoned : @World nat :=
  {| cache := {| actualPriceService := stub;
                 maxAge := 1000%Z;
                 prices := {[ "apple" := any_string "ten" ]} |};
     upstream := 0;
     clock := 5%Z;
     trace := [] |}.

(** The starting revision in front of the same kind of service. *)
Definition starter_stub : @Starter.PriceService nat :=
  {| Starter.PriceService_GetPriceFor := λ ic n,
       if String.eqb ic "bad"
       then ((0%float, Some (errors_New "boom")), S n)
       else if Nat.eqb n 0 then ((10%float, None), S n)
            else ((20%float, None), S n) |}.

Definition starter_cold : @Starter.World nat :=
  {| Starter.cache := Starter.NewTransparentCache starter_stub 1000%Z;
     Starter.upstream := 0;
     Starter.trace := [] |}.

(** The same cache after it fetched ["apple"]. *)
Definition starter_warm : @Starter.World nat :=
  Starter.perform starter_cold (Starter.CallGetPriceFor "apple").

(** A single lookup for another item, then a batch with a failing item. *)
Definition starter_calls : list Starter.Call :=
  [Starter.CallGetPriceFor "pear";
   Starter.CallGetPricesFor ["apple"; "bad"; "plum"]
     [0; 1; 2; 0; 1; 2; 0; 1; 2; 0; 1; 2; 0; 1; 2; 2; 2]].

(** Two goroutines of the starting revision taking turns. *)
Definition starter_turns : list nat :=
  [0; 1; 0; 1; 0; 1; 0; 1; 0; 1; 0; 0].

End Demo.

(** ** Properties of the finished implementation *)

Module CacheFacts.
Import Cache.

Section WithService.

Context {ServiceState : Type}.
Implicit Types (w : @World ServiceState) (k : string).

(** Unfold the monadic plumbing and the primitive operations. *)
Ltac st_unfold :=
  repeat (progress (cbn;
    unfold st_bind, st_ret, time_Now, prices_Load, get_maxAge,
      prices_Delete, actualPriceService_GetPriceFor, prices_Store)).

Lemma Time_Before_valid age now e :
  Time_Before now (Time_Add (timestamp e) age) = true ↔ valid age now e.
Proof. unfold Time_Before, Time_Add, valid. apply Z.ltb_lt. Qed.

Lemma Time_Before_expired age now e :
  Time_Before now (Time_Add (timestamp e) age) = false ↔ ¬ valid age now e.
Proof.
  unfold Time_Before, Time_Add, valid. rewrite Z.ltb_ge. lia.
Qed.

(** [fetch] spelled out on the upstream's answer. *)
Lemma fetch_eq k now w :
  fetch k now w =
    match upstream_answer k w with
    | ((_, Some e), s) =>
        ((0%float,
          Some (fmt_Errorf_v "getting price from service : " (Error e))),
         emit (EvCall k) (set_upstream s w))
    | ((p, None), s) =>
        ((p, None),
         emit (EvStore k (any_PriceCacheEntry
                            {| price := p; timestamp := now |}))
           (set_prices
              (<[k := any_PriceCacheEntry {| price := p; timestamp := now |}]>
                 (prices (cache w)))
              (emit (EvCall k) (set_upstream s w))))
    end.
Proof.
  unfold fetch, st_bind, actualPriceService_GetPriceFor, upstream_answer.
  destruct (PriceService_GetPriceFor _ _ _) as [[p [e|]] s]; reflexivity.
Qed.

(** C1. A valid entry is served from the store: the cached price comes back
    with no error, the upstream service is not called, and neither the store
    nor anything else of the cache changes; the only operation performed is
    the load. *)
Theorem GetPriceFor_valid_hit k w (p : float64) (t : Time) :
  prices (cache w) !! k
    = Some (any_PriceCacheEntry {| price := p; timestamp := t |}) →
  (clock w < t + maxAge (cache w))%Z →
  ∃ w', GetPriceFor k w = ((p, None), w') ∧
        prices (cache w') = prices (cache w) ∧
        cache w' = cache w ∧
        upstream w' = upstream w ∧
        trace w' = trace w ++ [EvLoad k] ∧
        upstream_calls (trace w') = upstream_calls (trace w).
Proof.
  intros Hk Hlt. exists (emit (EvLoad k) w).
  unfold GetPriceFor, st_bind, time_Now, prices_Load, get_maxAge.
  rewrite Hk. cbn.
  assert (Hv : Time_Before (clock w) (Time_Add t (maxAge (cache w))) = true)
    by (apply Z.ltb_lt; exact Hlt).
  rewrite Hv. repeat split.
  unfold upstream_calls. rewrite omap_app. cbn. by rewrite app_nil_r.
Qed.

(** The two ways of reaching the upstream service. *)
Lemma GetPriceFor_absent k w :
  prices (cache w) !! k = None →
  GetPriceFor k w = fetch k (clock w) (emit (EvLoad k) w).
Proof.
  intros Hk. unfold GetPriceFor, st_bind, time_Now, prices_Load.
  by rewrite Hk.
Qed.

Lemma GetPriceFor_expired k w e :
  prices (cache w) !! k = Some (any_PriceCacheEntry e) →
  ¬ valid (maxAge (cache w)) (clock w) e →
  GetPriceFor k w =
    fetch k (clock w)
      (emit (EvDelete k)
         (set_prices (delete k (prices (cache w))) (emit (EvLoad k) w))).
Proof.
  intros Hk Hexp. apply Time_Before_expired in Hexp.
  unfold GetPriceFor, st_bind, time_Now, prices_Load, get_maxAge,
    prices_Delete.
  rewrite Hk. cbn. by rewrite Hexp.
Qed.

Lemma upstream_calls_app (tr1 tr2 : list Event) :
  upstream_calls (tr1 ++ tr2) = upstream_calls tr1 ++ upstream_calls tr2.
Proof. apply omap_app. Qed.

(** C2. An expired entry is evicted and refetched: the operations performed
    are the load, the delete, then exactly one upstream call for [k]; when
    that call succeeds its price is returned, whatever the cached price was,
    and replaces the old entry; when it fails the entry stays evicted. *)
Theorem GetPriceFor_expired_refetch k w (p : float64) (t : Time) :
  prices (cache w) !! k
    = Some (any_PriceCacheEntry {| price := p; timestamp := t |}) →
  (t + maxAge (cache w) ≤ clock w)%Z →
  ∃ r w' tail,
    GetPriceFor k w = (r, w') ∧
    trace w' = trace w ++ [EvLoad k; EvDelete k; EvCall k] ++ tail ∧
    upstream_calls (trace w') = upstream_calls (trace w) ++ [k] ∧
    upstream w' = (upstream_answer k w).2 ∧
    match (upstream_answer k w).1 with
    | (p', None) =>
        r = (p', None) ∧
        prices (cache w') !! k
          = Some (any_PriceCacheEntry
                    {| price := p'; timestamp := clock w |})
    | (_, Some e) =>
        r.2 = Some (fmt_Errorf_v "getting price from service : " (Error e)) ∧
        prices (cache w') !! k = None
    end.
Proof.
  intros Hk Hexp.
  rewrite (GetPriceFor_expired k w _ Hk) by (unfold valid; cbn; lia).
  rewrite fetch_eq. unfold upstream_answer. cbn.
  destruct (PriceService_GetPriceFor _ _ _) as [[p' [e|]] s]; cbn.
  - eexists _, _, []. split; [reflexivity|]. cbn.
    rewrite <- !app_assoc. cbn. repeat split.
    + rewrite upstream_calls_app. cbn. done.
    + apply lookup_delete_eq.
  - eexists _, _, [_]. split; [reflexivity|]. cbn.
    rewrite <- !app_assoc. cbn. repeat split.
    + rewrite upstream_calls_app. cbn. done.
    + apply lookup_insert_eq.
Qed.

(** C6. With nothing valid in the store and an upstream that answers [p],
    the entry stored for [k] is [p] stamped with the instant read at the
    start of this call, and [p] is returned. *)
Theorem GetPriceFor_stores_fresh_entry k w (p : float64) (s' : ServiceState) :
  stale_or_absent k w →
  upstream_answer k w = ((p, None), s') →
  ∃ w', GetPriceFor k w = ((p, None), w') ∧
        prices (cache w')
          = <[k := any_PriceCacheEntry
                     {| price := p; timestamp := clock w |}]>
              (prices (cache w)) ∧
        prices (cache w') !! k
          = Some (any_PriceCacheEntry
                    {| price := p; timestamp := clock w |}).
Proof.
  intros [Hk | (e & Hk & Hexp)] Hup.
  - rewrite (GetPriceFor_absent k w Hk), fetch_eq.
    unfold upstream_answer in *. cbn. rewrite Hup.
    eexists. split; [reflexivity|]. cbn. split; [done|].
    apply lookup_insert_eq.
  - rewrite (GetPriceFor_expired k w e Hk Hexp), fetch_eq.
    unfold upstream_answer in *. cbn. rewrite Hup.
    eexists. split; [reflexivity|]. cbn. split.
    + apply insert_delete_eq.
    + apply lookup_insert_eq.
Qed.

(** A call that finds nothing for [k] in the store asks the upstream
    service exactly once. *)
Lemma GetPriceFor_absent_calls k w :
  prices (cache w) !! k = None →
  upstream_calls (trace (GetPriceFor k w).2)
    = upstream_calls (trace w) ++ [k].
Proof.
  intros Hk. rewrite (GetPriceFor_absent k w Hk), fetch_eq.
  unfold upstream_answer. cbn.
  destruct (PriceService_GetPriceFor _ _ _) as [[p' [e|]] s]; cbn;
    rewrite !upstream_calls_app; cbn; by rewrite ?app_nil_r.
Qed.

(** C3, as the code has it.  When the upstream lookup fails the call returns
    an error and stores nothing; the store it leaves is the one it found
    minus the mapping of [k], which differs from the one it found exactly
    when an expired entry for [k] was evicted on the way.  No entry for [k]
    is left, so the next call for [k], whenever it comes, asks the upstream
    service again. *)
Theorem GetPriceFor_upstream_failure k w (p : float64) (e : error)
    (s' : ServiceState) :
  stale_or_absent k w →
  upstream_answer k w = ((p, Some e), s') →
  ∃ err w',
    GetPriceFor k w = ((0%float, Some err), w') ∧
    prices (cache w') = delete k (prices (cache w)) ∧
    (prices (cache w) !! k = None → prices (cache w') = prices (cache w)) ∧
    prices (cache w') !! k = None ∧
    ∀ t, upstream_calls (trace (GetPriceFor k (set_clock t w')).2)
           = upstream_calls (trace w') ++ [k].
Proof.
  intros Hstale Hup.
  assert (∃ err w', GetPriceFor k w = ((0%float, Some err), w') ∧
            prices (cache w') = delete k (prices (cache w)))
    as (err & w' & Hrun & Hstore).
  { destruct Hstale as [Hk | (e0 & Hk & Hexp)].
    - rewrite (GetPriceFor_absent k w Hk), fetch_eq.
      unfold upstream_answer in *. cbn. rewrite Hup.
      eexists _, _. split; [reflexivity|]. cbn.
      symmetry. by apply delete_id.
    - rewrite (GetPriceFor_expired k w e0 Hk Hexp), fetch_eq.
      unfold upstream_answer in *. cbn. rewrite Hup.
      eexists _, _. split; [reflexivity|]. done. }
  exists err, w'. split; [done|]. split; [done|].
  assert (Hgone : prices (cache w') !! k = None)
    by (rewrite Hstore; apply lookup_delete_eq).
  repeat split.
  - intros Hk. rewrite Hstore. by apply delete_id.
  - done.
  - intros t. by rewrite GetPriceFor_absent_calls.
Qed.

Lemma prefix_refl (s : string) : String.prefix s s = true.
Proof.
  induction s as [|a s IH]; [done|]. cbn.
  destruct (Ascii.ascii_dec a a); [done|congruence].
Qed.

Lemma contains_append (pre s : string) :
  contains s (String.append pre s) = true.
Proof.
  induction pre as [|a pre IH].
  - change (String.append "" s) with s.
    destruct s; [done|]. cbn [contains]. by rewrite prefix_refl.
  - change (String.append (String a pre) s)
      with (String a (String.append pre s)).
    cbn [contains]. rewrite IH. apply orb_true_r.
Qed.

(** C7, as the code has it.  The error returned for a failed upstream lookup
    is a new plain error whose text is the fixed prefix followed by the text
    of the upstream error: the upstream text is kept, the upstream error
    value is not wrapped, and the item code is not added. *)
Theorem GetPriceFor_error_text k w (p : float64) (e : error)
    (s' : ServiceState) :
  stale_or_absent k w →
  upstream_answer k w = ((p, Some e), s') →
  ∃ err, (GetPriceFor k w).1 = (0%float, Some err) ∧
         err = errors_New
                 (String.append "getting price from service : " (Error e)) ∧
         contains (Error e) (Error err) = true ∧
         Unwrap err = None.
Proof.
  intros Hstale Hup. eexists. split; [|split; [reflexivity|]].
  - destruct Hstale as [Hk | (e0 & Hk & Hexp)].
    + rewrite (GetPriceFor_absent k w Hk), fetch_eq.
      unfold upstream_answer in *. cbn. by rewrite Hup.
    + rewrite (GetPriceFor_expired k w e0 Hk Hexp), fetch_eq.
      unfold upstream_answer in *. cbn. by rewrite Hup.
  - split; [|done]. apply contains_append.
Qed.

(** *** The batch lookup *)

Implicit Types (g : @Group ServiceState) (ws : list Worker).

Lemma settled_insert ws i wk wk' :
  ws !! i = Some wk → settled wk = [] →
  (<[i := wk']> ws) ≫= settled ≡ₚ settled wk' ++ (ws ≫= settled).
Proof.
  intros Hi Hwk.
  rewrite insert_take_drop by (eapply lookup_lt_Some; eassumption).
  rewrite <- (take_drop_middle ws i wk Hi) at 3.
  rewrite !bind_app, !bind_cons, Hwk. cbn.
  apply Permutation_app_swap_app.
Qed.

Lemma GetPriceFor_step_unsettled wk w :
  settled wk = [] → settled (GetPriceFor_step wk w).1 = [].
Proof.
  destruct wk as [ic|ic now|ic now|ic now|ic now p|r|r]; try done.
  - cbn. unfold st_bind, prices_Load.
    destruct (prices (cache w) !! ic) as [[|e|f|s]|]; cbn; try done.
    by destruct (Time_Before _ _).
  - cbn. unfold st_bind, actualPriceService_GetPriceFor.
    by destruct (PriceService_GetPriceFor _ _ _) as [[p [e|]] s].
Qed.

Lemma move_step g i wk :
  workers g !! i = Some wk →
  settled wk = [] → (∀ r, wk ≠ AtReturn r) →
  move g (Run i) =
    {| world := (GetPriceFor_step wk (world g)).2;
       results := results g; g_err := g_err g; observed := observed g;
       workers := <[i := (GetPriceFor_step wk (world g)).1]> (workers g) |}.
Proof.
  intros Hi Hwk Hret. cbn. rewrite Hi.
  destruct wk; try done; try (by destruct (GetPriceFor_step _ _)).
  by edestruct Hret.
Qed.

Lemma move_consistent g mv : consistent g → consistent (move g mv).
Proof.
  intros (Hres & Hobs & Herr). destruct mv as [t|i]; [done|].
  destruct (workers g !! i) as [wk|] eqn:Hi; [|by cbn; rewrite Hi].
  destruct (settled wk) as [|r0 rest] eqn:Hwk;
    [|by destruct wk; try done; cbn; rewrite Hi].
  assert ((∃ r, wk = AtReturn r) ∨ ∀ r, wk ≠ AtReturn r)
    as [[[p [e|]] ->]|Hret] by (destruct wk; eauto).
  - (* the goroutine hands its error to the group *)
    cbn. rewrite Hi. unfold consistent, successes, failures in *. cbn.
    rewrite (settled_insert _ _ _ _ Hi Hwk). cbn.
    split; [done|]. split.
    + by rewrite <- Hobs, Permutation_app_comm.
    + rewrite Herr. by destruct (observed g).
  - (* the goroutine appends its price *)
    cbn. rewrite Hi. unfold consistent, successes, failures in *. cbn.
    rewrite (settled_insert _ _ _ _ Hi Hwk). cbn.
    split; [|done]. by rewrite <- Hres, Permutation_app_comm.
  - (* an action of [GetPriceFor] *)
    rewrite (move_step g i wk Hi Hwk Hret).
    unfold consistent, successes, failures in *. cbn.
    rewrite (settled_insert _ _ _ _ Hi Hwk).
    by rewrite GetPriceFor_step_unsettled.
Qed.

Lemma play_consistent sched g : consistent g → consistent (play sched g).
Proof.
  revert g. induction sched as [|mv sched IH]; intros g Hg; [done|].
  apply IH, move_consistent, Hg.
Qed.

Lemma launch_consistent (itemCodes : list string) w :
  consistent (launch itemCodes w).
Proof.
  unfold consistent, launch. cbn.
  assert ((AtNow <$> itemCodes) ≫= settled = []) as ->; [|done].
  induction itemCodes as [|ic itemCodes IH]; [done|]. cbn. exact IH.
Qed.

Lemma move_workers_length g mv :
  length (workers (move g mv)) = length (workers g).
Proof.
  destruct mv as [t|i]; [done|]. cbn.
  destruct (workers g !! i) as [wk|]; [|done].
  destruct wk as [ic|ic now|ic now|ic now|ic now p|[p [e|]]|r];
    try destruct (GetPriceFor_step _ _); cbn; by rewrite ?length_insert.
Qed.

Lemma play_workers_length sched g :
  length (workers (play sched g)) = length (workers g).
Proof.
  revert g. induction sched as [|mv sched IH]; intros g; [done|].
  change (play (mv :: sched) g) with (play sched (move g mv)).
  by rewrite IH, move_workers_length.
Qed.

Lemma outcomes_settled g rs :
  outcomes g = Some rs → workers g ≫= settled = rs.
Proof.
  unfold outcomes. intros Hrs.
  rewrite <- (mapM_fmap_Some_inv finished Done _ _ Hrs)
    by (by intros [] ? [= <-]).
  clear Hrs. induction rs as [|r rs IH]; [done|]. cbn. by rewrite IH.
Qed.

Lemma successes_failures_length (rs : list (float64 * option error)) :
  length (successes rs) + length (failures rs) = length rs.
Proof.
  unfold successes, failures.
  induction rs as [|[p [e|]] rs IH]; cbn; lia.
Qed.


Lemma failures_some (rs : list (float64 * option error)) :
  Exists (λ r, r.2 ≠ None) rs → failures rs ≠ [].
Proof.
  unfold failures.
  induction 1 as [[p [e|]] rs Hr|[p [e|]] rs _ IH]; cbn in *; done.
Qed.

(** *** The batch lookup returns *)

Lemma GetPriceFor_step_remaining wk w :
  remaining (GetPriceFor_step wk w).1 ≤ remaining wk - 1 ∨
  (∃ r, wk = AtReturn r).
Proof.
  destruct wk as [ic|ic now|ic now|ic now|ic now p|r|r]; cbn; eauto.
  - left. unfold st_bind, prices_Load.
    destruct (prices (cache w) !! ic) as [[|e|f|s]|]; cbn; try lia.
    destruct (Time_Before _ _); cbn; lia.
  - left. unfold st_bind, actualPriceService_GetPriceFor.
    destruct (PriceService_GetPriceFor _ _ _) as [[p [e|]] s]; cbn; lia.
Qed.

Lemma move_other g i j :
  i ≠ j → workers (move g (Run j)) !! i = workers g !! i.
Proof.
  intros Hij. cbn. destruct (workers g !! j) as [wk|]; [|done].
  destruct wk as [ic|ic now|ic now|ic now|ic now p|[p [e|]]|r];
    try destruct (GetPriceFor_step _ _); cbn;
    by rewrite ?list_lookup_insert_ne.
Qed.

Lemma move_own g i wk :
  workers g !! i = Some wk →
  ∃ wk', workers (move g (Run i)) !! i = Some wk' ∧
         remaining wk' ≤ remaining wk - 1.
Proof.
  intros Hi. pose proof (lookup_lt_Some _ _ _ Hi) as Hlt.
  destruct (settled wk) as [|r0 rest] eqn:Hwk.
  - destruct (GetPriceFor_step_remaining wk (world g))
      as [Hle|[[p [e|]] ->]].
    + assert (∀ r, wk ≠ AtReturn r) as Hret.
      { intros r ->. cbn in Hle. lia. }
      rewrite (move_step g i wk Hi Hwk Hret). cbn.
      rewrite list_lookup_insert_eq by done. eauto.
    + cbn. rewrite Hi. cbn. rewrite list_lookup_insert_eq by done.
      eexists. split; [done|]. cbn. lia.
    + cbn. rewrite Hi. cbn. rewrite list_lookup_insert_eq by done.
      eexists. split; [done|]. cbn. lia.
  - destruct wk; try done. cbn. rewrite Hi. eexists. split; [done|].
    cbn. lia.
Qed.

Lemma play_remaining sched g i wk :
  workers g !! i = Some wk →
  ∃ wk', workers (play sched g) !! i = Some wk' ∧
         remaining wk' ≤ remaining wk - turns i sched.
Proof.
  revert g wk. induction sched as [|mv sched IH]; intros g wk Hi.
  { exists wk. split; [done|]. cbn. lia. }
  change (play (mv :: sched) g) with (play sched (move g mv)).
  destruct mv as [t|j].
  - destruct (IH (move g (Tick t)) wk Hi) as (wk' & ? & ?). eauto.
  - cbn [turns]. destruct (Nat.eqb_spec i j) as [<-|Hij].
    + destruct (move_own g i wk Hi) as (wk1 & H1 & Hle1).
      destruct (IH _ wk1 H1) as (wk' & ? & ?).
      exists wk'. split; [done|]. lia.
    + rewrite <- (move_other g i j Hij) in Hi.
      destruct (IH _ wk Hi) as (wk' & ? & ?).
      exists wk'. split; [done|]. cbn. lia.
Qed.

(** A schedule that gives every goroutine six turns lets [g.Wait()] return:
    the batch lookup terminates under every such schedule. *)
Lemma GetPricesFor_returns_when_fair (itemCodes : list string)
    (sched : list Move) w :
  (∀ i, i < length itemCodes → 6 ≤ turns i sched) →
  is_Some (GetPricesFor itemCodes sched w).
Proof.
  intros Hfair.
  assert (is_Some (outcomes (play sched (launch itemCodes w)))) as [rs Hrs].
  { apply mapM_is_Some, Forall_lookup. intros i wk' Hi'.
    pose proof (lookup_lt_Some _ _ _ Hi') as Hlt.
    rewrite play_workers_length in Hlt. cbn in Hlt.
    rewrite length_fmap in Hlt.
    destruct (lookup_lt_is_Some_2 itemCodes i Hlt) as [ic Hic].
    destruct (play_remaining sched (launch itemCodes w) i (AtNow ic))
      as (wk2 & H2 & Hle).
    { cbn. by rewrite list_lookup_fmap, Hic. }
    rewrite Hi' in H2. injection H2 as <-.
    specialize (Hfair i Hlt). cbn in Hle.
    destruct wk'; cbn in *; try lia. eauto. }
  unfold GetPricesFor. cbn. rewrite Hrs.
  destruct (g_err _); eauto.
Qed.

Lemma turns_app i (s1 s2 : list Move) :
  turns i (s1 ++ s2) = turns i s1 + turns i s2.
Proof.
  induction s1 as [|[t|j] s1 IH]; cbn; lia.
Qed.

Lemma turns_one_by_one i n : i < n → turns i (one_by_one n) = 6.
Proof.
  unfold one_by_one.
  assert (∀ a m, turns i (seq a m ≫= λ j, replicate 6 (Run j))
                 = if bool_decide (a ≤ i < a + m) then 6 else 0) as Hgen.
  { intros a m. revert a. induction m as [|m IH]; intros a.
    - cbn. case_bool_decide; [lia|done].
    - cbn [seq]. rewrite bind_cons, turns_app, IH. cbn.
      destruct (Nat.eqb_spec i a); repeat case_bool_decide; lia. }
  intros Hi. rewrite Hgen. case_bool_decide; [done|lia].
Qed.

(** In particular some schedule lets it return, whatever the input. *)
Lemma GetPricesFor_returns (itemCodes : list string) w :
  is_Some (GetPricesFor itemCodes (one_by_one (length itemCodes)) w).
Proof.
  apply GetPricesFor_returns_when_fair. intros i Hi.
  by rewrite turns_one_by_one.
Qed.

(** While some goroutine has not finished, [g.Wait()] has not returned and
    neither has the batch. *)
Lemma GetPricesFor_blocked (itemCodes : list string) (sched : list Move) w :
  outcomes (play sched (launch itemCodes w)) = None →
  GetPricesFor itemCodes sched w = None.
Proof. intros Hnone. unfold GetPricesFor. cbv zeta. by rewrite Hnone. Qed.

(** Under a schedule that gives every goroutine six turns, all of them
    finish. *)
Lemma outcomes_when_fair (itemCodes : list string) (sched : list Move) w :
  (∀ i, i < length itemCodes → 6 ≤ turns i sched) →
  is_Some (outcomes (play sched (launch itemCodes w))).
Proof.
  intros Hfair.
  destruct (outcomes (play sched (launch itemCodes w))) as [rs|] eqn:Hrs;
    [by eexists|].
  destruct (GetPricesFor_returns_when_fair itemCodes sched w Hfair)
    as [r Hr].
  by rewrite (GetPricesFor_blocked _ _ _ Hrs) in Hr.
Qed.


(** C4. The batch waits for its goroutines: as long as one of them has not
    finished it has not returned, and under every schedule that gives each
    of them six turns they all finish.  Once they have, if some lookup
    failed, the batch returns the first error the group observed, together
    with the prices of exactly the goroutines that succeeded: as many
    elements as there were successes, nothing standing in for a failed
    item. *)
Theorem GetPricesFor_some_fail (itemCodes : list string)
    (sched : list Move) w :
  let g := play sched (launch itemCodes w) in
  (outcomes g = None → GetPricesFor itemCodes sched w = None) ∧
  ((∀ i, i < length itemCodes → 6 ≤ turns i sched) →
   is_Some (outcomes g)) ∧
  (∀ rs, outcomes g = Some rs →
         Exists (λ r, r.2 ≠ None) rs →
         ∃ res err,
           GetPricesFor itemCodes sched w
             = Some ((res, Some err), world g) ∧
           head (observed g) = Some err ∧
           observed g ≡ₚ failures rs ∧
           res ≡ₚ successes rs ∧
           length res + length (failures rs) = length itemCodes).
Proof.
  intros g. split; [apply GetPricesFor_blocked|].
  split; [apply outcomes_when_fair|].
  intros rs Hrs Hbad. subst g.
  destruct (play_consistent sched _ (launch_consistent itemCodes w))
    as (Hres & Hobs & Herr).
  rewrite (outcomes_settled _ _ Hrs) in Hres, Hobs.
  apply failures_some in Hbad.
  destruct (observed (play sched (launch itemCodes w))) as [|err obs] eqn:Ho.
  { symmetry in Hobs. by apply Permutation_nil_r in Hobs. }
  cbn in Herr. unfold GetPricesFor. cbn. rewrite Hrs, Herr. cbn.
  eexists _, _. split; [reflexivity|]. repeat split; [done..|].
  rewrite Hres, successes_failures_length.
  rewrite <- (length_mapM _ _ _ Hrs), play_workers_length.
  cbn. by rewrite length_fmap.
Qed.

(** A goroutine left alone performs [GetPriceFor]: five atomic actions from
    its start reach the return with the result and the world of the
    function. *)
Lemma steps_GetPriceFor k w :
  steps 5 (AtNow k) w = (AtReturn (GetPriceFor k w).1, (GetPriceFor k w).2).
Proof.
  unfold GetPriceFor, fetch. st_unfold.
  destruct (prices (cache w) !! k) as [[|e|f|s]|]; st_unfold; try done.
  - destruct (Time_Before _ _); st_unfold; [done|].
    destruct (PriceService_GetPriceFor _ _ _) as [[p [e'|]] s];
      by st_unfold.
  - destruct (PriceService_GetPriceFor _ _ _) as [[p [e'|]] s];
      by st_unfold.
Qed.

(** C10. With no item codes there is no goroutine: under every schedule
    the batch returns at once with an empty slice and no error, and the
    cache, the upstream service and the trace are as they were. *)
Theorem GetPricesFor_no_items (sched : list Move) w :
  ∃ w', GetPricesFor [] sched w = Some (([], None), w') ∧
        cache w' = cache w ∧
        upstream w' = upstream w ∧
        trace w' = trace w.
Proof.
  assert (∀ g, workers g = [] →
            workers (play sched g) = [] ∧
            results (play sched g) = results g ∧
            g_err (play sched g) = g_err g ∧
            cache (world (play sched g)) = cache (world g) ∧
            upstream (world (play sched g)) = upstream (world g) ∧
            trace (world (play sched g)) = trace (world g)) as Hidle.
  { induction sched as [|mv sched IH]; intros g Hg; [done|].
    change (play (mv :: sched) g) with (play sched (move g mv)).
    destruct mv as [t|i].
    - destruct (IH (move g (Tick t)) Hg) as (? & ? & ? & ? & ? & ?). done.
    - assert (move g (Run i) = g) as ->; [|by apply IH].
      cbn. by rewrite Hg. }
  destruct (Hidle (launch [] w) eq_refl) as (Hws & Hres & Herr & ? & ? & ?).
  unfold GetPricesFor, outcomes. cbn. rewrite Hws, Hres, Herr. cbn.
  eauto 10.
Qed.

(** *** What the operations leave alone *)

Lemma GetPriceFor_step_frame wk w :
  actualPriceService (cache (GetPriceFor_step wk w).2)
    = actualPriceService (cache w) ∧
  maxAge (cache (GetPriceFor_step wk w).2) = maxAge (cache w).
Proof.
  destruct wk as [ic|ic now|ic now|ic now|ic now p|r|r]; st_unfold;
    try done.
  - destruct (prices (cache w) !! ic) as [[|e|f|s]|]; st_unfold; try done.
    by destruct (Time_Before _ _).
  - by destruct (PriceService_GetPriceFor _ _ _) as [[p [e|]] s].
Qed.

Lemma steps_frame n wk w :
  actualPriceService (cache (steps n wk w).2) = actualPriceService (cache w) ∧
  maxAge (cache (steps n wk w).2) = maxAge (cache w).
Proof.
  revert wk w. induction n as [|n IH]; intros wk w; [done|].
  cbn. unfold st_bind.
  pose proof (GetPriceFor_step_frame wk w) as [H1 H2].
  destruct (GetPriceFor_step wk w) as [wk' w'].
  destruct (IH wk' w') as [H3 H4]. cbn in *. split; congruence.
Qed.

Lemma move_frame g mv :
  actualPriceService (cache (world (move g mv)))
    = actualPriceService (cache (world g)) ∧
  maxAge (cache (world (move g mv))) = maxAge (cache (world g)).
Proof.
  destruct mv as [t|i]; [done|]. cbn.
  destruct (workers g !! i) as [wk|]; [|done].
  pose proof (GetPriceFor_step_frame wk (world g)) as Hstep.
  destruct wk as [ic|ic now|ic now|ic now|ic now p|[p [e|]]|r];
    try done; by destruct (GetPriceFor_step _ _).
Qed.

Lemma play_frame sched g :
  actualPriceService (cache (world (play sched g)))
    = actualPriceService (cache (world g)) ∧
  maxAge (cache (world (play sched g))) = maxAge (cache (world g)).
Proof.
  revert g. induction sched as [|mv sched IH]; intros g; [done|].
  change (play (mv :: sched) g) with (play sched (move g mv)).
  destruct (IH (move g mv)) as [H1 H2].
  destruct (move_frame g mv) as [H3 H4]. split; congruence.
Qed.

Lemma perform_frame w (c : Call) :
  actualPriceService (cache (perform w c)) = actualPriceService (cache w) ∧
  maxAge (cache (perform w c)) = maxAge (cache w).
Proof.
  destruct c as [k|ks sched|t]; cbn.
  - pose proof (steps_frame 5 (AtNow k) w) as H.
    by rewrite steps_GetPriceFor in H.
  - apply (play_frame sched (launch ks w)).
  - done.
Qed.

(** C8. Whatever sequence of single and batch lookups is performed on a
    cache, under whatever schedules and clock readings, its upstream service
    and its [maxAge] stay the ones it was built with: of the three fields of
    the cache only [prices] is ever written. *)
Theorem configuration_fixed (calls : list Call) w :
  actualPriceService (cache (foldl perform w calls))
    = actualPriceService (cache w) ∧
  maxAge (cache (foldl perform w calls)) = maxAge (cache w).
Proof.
  revert w. induction calls as [|c calls IH]; intros w; [done|]. cbn.
  destruct (IH (perform w c)) as [H1 H2].
  destruct (perform_frame w c) as [H3 H4]. split; congruence.
Qed.

(** *** The type assertion never fails *)

Lemma store_typed_insert (m : gmap string any) k (e : PriceCacheEntry) :
  store_typed m → store_typed (<[k := any_PriceCacheEntry e]> m).
Proof.
  intros Hm k' v. rewrite lookup_insert. case_decide.
  - intros [= <-]. eauto.
  - apply Hm.
Qed.

Lemma store_typed_delete (m : gmap string any) k :
  store_typed m → store_typed (delete k m).
Proof.
  intros Hm k' v. rewrite lookup_delete. case_decide; [done|]. apply Hm.
Qed.

Lemma service_error_not_cast_error (e : error) :
  fmt_Errorf_v "getting price from service : " (Error e) ≠ cast_error.
Proof. done. Qed.

Lemma GetPriceFor_step_clean wk w :
  store_typed (prices (cache w)) → worker_clean wk →
  store_typed (prices (cache (GetPriceFor_step wk w).2)) ∧
  worker_clean (GetPriceFor_step wk w).1.
Proof.
  intros Hty Hwk.
  destruct wk as [ic|ic now|ic now|ic now|ic now p|r|r]; st_unfold;
    try done.
  - destruct (prices (cache w) !! ic) as [v|] eqn:Hv; st_unfold; [|done].
    destruct (Hty _ _ Hv) as [e ->]. st_unfold.
    by destruct (Time_Before _ _).
  - split; [|done]. by apply store_typed_delete.
  - destruct (PriceService_GetPriceFor _ _ _) as [[p [e|]] s]; st_unfold;
      [|done].
    split; [done|]. by intros [=].
  - split; [|done]. by apply store_typed_insert.
Qed.

Lemma steps_clean n wk w :
  store_typed (prices (cache w)) → worker_clean wk →
  store_typed (prices (cache (steps n wk w).2)) ∧
  worker_clean (steps n wk w).1.
Proof.
  revert wk w. induction n as [|n IH]; intros wk w Hty Hwk; [done|].
  cbn. unfold st_bind.
  destruct (GetPriceFor_step_clean wk w Hty Hwk) as [H1 H2].
  destruct (GetPriceFor_step wk w) as [wk' w']. by apply IH.
Qed.

Lemma GetPriceFor_clean k w :
  store_typed (prices (cache w)) →
  store_typed (prices (cache (GetPriceFor k w).2)) ∧
  (GetPriceFor k w).1.2 ≠ Some cast_error.
Proof.
  intros Hty.
  pose proof (steps_clean 5 (AtNow k) w Hty I) as H.
  by rewrite steps_GetPriceFor in H.
Qed.

Lemma move_clean g mv : group_clean g → group_clean (move g mv).
Proof.
  intros (Hty & Hws & Herr). destruct mv as [t|i]; [done|]. cbn.
  destruct (workers g !! i) as [wk|] eqn:Hi; [|done].
  pose proof (Forall_lookup_1 _ _ _ _ Hws Hi) as Hwk.
  pose proof (GetPriceFor_step_clean wk (world g) Hty Hwk) as [H1 H2].
  destruct wk as [ic|ic now|ic now|ic now|ic now p|[p [e|]]|r];
    try done;
    try (destruct (GetPriceFor_step _ _) as [wk' w'];
         split; [done|]; split; [by apply Forall_insert|done]).
  split; [done|]. split; [by apply Forall_insert|].
  cbn. by destruct (g_err g).
Qed.

Lemma play_clean sched g : group_clean g → group_clean (play sched g).
Proof.
  revert g. induction sched as [|mv sched IH]; intros g Hg; [done|].
  apply IH, move_clean, Hg.
Qed.

Lemma launch_clean (itemCodes : list string) w :
  store_typed (prices (cache w)) → group_clean (launch itemCodes w).
Proof.
  intros Hty. split; [done|]. split; [|done].
  cbn. by apply Forall_fmap, Forall_true.
Qed.

Lemma perform_typed w (c : Call) :
  store_typed (prices (cache w)) →
  store_typed (prices (cache (perform w c))).
Proof.
  intros Hty. destruct c as [k|ks sched|t]; cbn.
  - by apply GetPriceFor_clean.
  - by apply (play_clean sched (launch ks w)), launch_clean.
  - done.
Qed.

(** C9. Starting from [NewTransparentCache] and using the cache only through
    its own lookups, every slot of [prices] holds a [PriceCacheEntry]; so
    the type assertion succeeds, and neither [GetPriceFor] nor the
    goroutines and the result of [GetPricesFor] ever carry the error
    "error when casting". *)
Theorem cast_error_unreachable (svc : PriceService) (age : Duration)
    (s : ServiceState) (t : Time) (calls : list Call) :
  let w := foldl perform (fresh svc age s t) calls in
  store_typed (prices (cache w)) ∧
  (∀ k, (GetPriceFor k w).1.2 ≠ Some (errors_New "error when casting")) ∧
  (∀ ks sched r, GetPricesFor ks sched w = Some r →
                 r.1.2 ≠ Some (errors_New "error when casting")).
Proof.
  intros w.
  assert (store_typed (prices (cache w))) as Hty.
  { subst w.
    assert (store_typed (prices (cache (fresh svc age s t)))) as H0
      by (intros k v; cbn; by rewrite lookup_empty).
    revert H0. generalize (fresh svc age s t).
    induction calls as [|c calls IH]; intros w0 H0; [done|].
    cbn. by apply IH, perform_typed. }
  split; [done|]. split.
  - intros k. by apply GetPriceFor_clean.
  - intros ks sched r Hr.
    destruct (play_clean sched _ (launch_clean ks w Hty)) as (_ & _ & Herr).
    unfold GetPricesFor in Hr. cbn in Hr.
    destruct (outcomes _); [|done].
    destruct (g_err _) as [e|]; injection Hr as <-; cbn; [done|done].
Qed.

End WithService.

(** *** The statements at work on concrete caches *)

Lemma GetPriceFor_valid_hit_witness :
  let w := Demo.warm 1004%Z in
  prices (cache w) !! "apple"
    = Some (any_PriceCacheEntry {| price := 10%float; timestamp := 5%Z |}) ∧
  (clock w < 5 + maxAge (cache w))%Z ∧
  ∃ w', GetPriceFor "apple" w = ((10%float, None), w') ∧
        prices (cache w') = prices (cache w) ∧
        cache w' = cache w ∧
        upstream w' = upstream w ∧
        trace w' = trace w ++ [EvLoad "apple"] ∧
        upstream_calls (trace w') = upstream_calls (trace w).
Proof.
  intros w.
  assert (H1 : prices (cache w) !! "apple"
    = Some (any_PriceCacheEntry {| price := 10%float; timestamp := 5%Z |}))
    by (vm_compute; reflexivity).
  assert (H2 : (clock w < 5 + maxAge (cache w))%Z)
    by (vm_compute; reflexivity).
  split; [exact H1|]. split; [exact H2|].
  exact (GetPriceFor_valid_hit "apple" w 10%float 5%Z H1 H2).
Defined.

Lemma GetPriceFor_expired_refetch_witness :
  let w := Demo.warm 1005%Z in
  prices (cache w) !! "apple"
    = Some (any_PriceCacheEntry {| price := 10%float; timestamp := 5%Z |}) ∧
  (5 + maxAge (cache w) ≤ clock w)%Z ∧
  ∃ r w' tail,
    GetPriceFor "apple" w = (r, w') ∧
    trace w' = trace w
               ++ [EvLoad "apple"; EvDelete "apple"; EvCall "apple"] ++ tail ∧
    upstream_calls (trace w') = upstream_calls (trace w) ++ ["apple"] ∧
    upstream w' = (upstream_answer "apple" w).2 ∧
    match (upstream_answer "apple" w).1 with
    | (p', None) =>
        r = (p', None) ∧
        prices (cache w') !! "apple"
          = Some (any_PriceCacheEntry
                    {| price := p'; timestamp := clock w |})
    | (_, Some e) =>
        r.2 = Some (fmt_Errorf_v "getting price from service : " (Error e)) ∧
        prices (cache w') !! "apple" = None
    end.
Proof.
  intros w.
  assert (H1 : prices (cache w) !! "apple"
    = Some (any_PriceCacheEntry {| price := 10%float; timestamp := 5%Z |}))
    by (vm_compute; reflexivity).
  assert (H2 : (5 + maxAge (cache w) ≤ clock w)%Z)
    by (vm_compute; discriminate).
  split; [exact H1|]. split; [exact H2|].
  exact (GetPriceFor_expired_refetch "apple" w 10%float 5%Z H1 H2).
Defined.

Lemma GetPriceFor_stores_fresh_entry_witness :
  let w := Demo.cold in
  stale_or_absent "apple" w ∧
  upstream_answer "apple" w = ((10%float, None), 1) ∧
  ∃ w', GetPriceFor "apple" w = ((10%float, None), w') ∧
        prices (cache w')
          = <["apple" := any_PriceCacheEntry
                     {| price := 10%float; timestamp := clock w |}]>
              (prices (cache w)) ∧
        prices (cache w') !! "apple"
          = Some (any_PriceCacheEntry
                    {| price := 10%float; timestamp := clock w |}).
Proof.
  intros w.
  assert (H1 : stale_or_absent "apple" w) by (left; reflexivity).
  assert (H2 : upstream_answer "apple" w = ((10%float, None), 1))
    by reflexivity.
  split; [exact H1|]. split; [exact H2|].
  exact (GetPriceFor_stores_fresh_entry "apple" w 10%float 1 H1 H2).
Defined.

(** C3 as stated fails where an expired entry meets a failing upstream: the
    cache fetched ["apple"] at instant 5, is asked again at instant 2000,
    the upstream lookup fails, and the store, which held the old entry, is
    left empty. *)
Lemma upstream_failure_evicts :
  let w := Demo.flaky_warm 2000%Z in
  upstream_answer "apple" w = ((0%float, Some (errors_New "boom")), 2) ∧
  upstream_calls (trace (GetPriceFor "apple" w).2)
    = upstream_calls (trace w) ++ ["apple"] ∧
  (GetPriceFor "apple" w).1.2
    = Some (errors_New "getting price from service : boom") ∧
  prices (cache w) !! "apple"
    = Some (any_PriceCacheEntry {| price := 10%float; timestamp := 5%Z |}) ∧
  prices (cache (GetPriceFor "apple" w).2) !! "apple" = None ∧
  prices (cache (GetPriceFor "apple" w).2) ≠ prices (cache w).
Proof.
  intros w. repeat split; try (vm_compute; reflexivity).
  intros Heq.
  apply (f_equal (λ m : gmap string any, m !! "apple")) in Heq.
  vm_compute in Heq. discriminate Heq.
Qed.

Lemma GetPriceFor_upstream_failure_witness :
  let w := Demo.flaky_warm 2000%Z in
  stale_or_absent "apple" w ∧
  upstream_answer "apple" w = ((0%float, Some (errors_New "boom")), 2) ∧
  ∃ err w',
    GetPriceFor "apple" w = ((0%float, Some err), w') ∧
    prices (cache w') = delete "apple" (prices (cache w)) ∧
    (prices (cache w) !! "apple" = None →
     prices (cache w') = prices (cache w)) ∧
    prices (cache w') !! "apple" = None ∧
    ∀ t, upstream_calls (trace (GetPriceFor "apple" (set_clock t w')).2)
           = upstream_calls (trace w') ++ ["apple"].
Proof.
  intros w.
  assert (H1 : stale_or_absent "apple" w).
  { right. exists {| price := 10%float; timestamp := 5%Z |}.
    split; [vm_compute; reflexivity|].
    unfold valid. vm_compute. intros H. discriminate H. }
  assert (H2 : upstream_answer "apple" w
               = ((0%float, Some (errors_New "boom")), 2))
    by (vm_compute; reflexivity).
  split; [exact H1|]. split; [exact H2|].
  exact (GetPriceFor_upstream_failure "apple" w 0%float (errors_New "boom") 2
           H1 H2).
Defined.

(** C7 as stated fails on the first failing lookup one tries: the error for
    ["bad"] reads "getting price from service : boom"; it does not mention
    ["bad"], and [errors.Unwrap] finds nothing inside it. *)
Lemma error_does_not_name_item :
  let w := Demo.cold in
  upstream_answer "bad" w = ((0%float, Some (errors_New "boom")), 1) ∧
  ∃ err, (GetPriceFor "bad" w).1 = (0%float, Some err) ∧
         Error err = "getting price from service : boom" ∧
         contains "bad" (Error err) = false ∧
         Unwrap err = None ∧
         Unwrap err ≠ Some (errors_New "boom").
Proof.
  intros w. split; [reflexivity|].
  exists (errors_New "getting price from service : boom").
  repeat split; try (vm_compute; reflexivity). discriminate.
Qed.

Lemma GetPriceFor_error_text_witness :
  let w := Demo.cold in
  stale_or_absent "bad" w ∧
  upstream_answer "bad" w = ((0%float, Some (errors_New "boom")), 1) ∧
  ∃ err, (GetPriceFor "bad" w).1 = (0%float, Some err) ∧
         err = errors_New
                 (String.append "getting price from service : "
                    (Error (errors_New "boom"))) ∧
         contains (Error (errors_New "boom")) (Error err) = true ∧
         Unwrap err = None.
Proof.
  intros w.
  assert (H1 : stale_or_absent "bad" w) by (left; reflexivity).
  assert (H2 : upstream_answer "bad" w
               = ((0%float, Some (errors_New "boom")), 1)) by reflexivity.
  split; [exact H1|]. split; [exact H2|].
  exact (GetPriceFor_error_text "bad" w 0%float (errors_New "boom") 1 H1 H2).
Defined.


(** The order of the result is the order of completion, not of the input:
    here the lookups returned 20 for ["apple"] and 10 for ["pear"], and the
    batch returns [10; 20]. *)
Example GetPricesFor_completion_order :
  (λ r, r.1) <$> GetPricesFor ["apple"; "pear"] Demo.overtaking Demo.cold
    = Some ([10%float; 20%float], None).
Proof. vm_compute. reflexivity. Qed.

Lemma GetPricesFor_some_fail_witness :
  let rs := [(10%float, None);
             (0%float,
              Some (errors_New "getting price from service : boom"))] in
  let g := play Demo.interleaved (launch ["apple"; "bad"] Demo.cold) in
  (outcomes g = Some rs ∧
   Exists (λ r : float64 * option error, r.2 ≠ None) rs ∧
   ∃ res err,
     GetPricesFor ["apple"; "bad"] Demo.interleaved Demo.cold
       = Some ((res, Some err), world g) ∧
     head (observed g) = Some err ∧
     observed g ≡ₚ failures rs ∧
     res ≡ₚ successes rs ∧
     length res + length (failures rs) = length ["apple"; "bad"]) ∧
  (outcomes (play [] (launch ["apple"; "bad"] Demo.cold)) = None ∧
   GetPricesFor ["apple"; "bad"] [] Demo.cold = None) ∧
  is_Some (outcomes (play (one_by_one 2)
                       (launch ["apple"; "bad"] Demo.cold))).
Proof.
  intros rs g.
  assert (H1 : outcomes g = Some rs) by (vm_compute; reflexivity).
  assert (H2 : Exists (λ r : float64 * option error, r.2 ≠ None) rs)
    by (apply Exists_cons_tl, Exists_cons_hd; discriminate).
  assert (H3 : outcomes (play [] (launch ["apple"; "bad"] Demo.cold))
               = None) by (vm_compute; reflexivity).
  assert (H4 : ∀ i, i < length ["apple"; "bad"] →
                    6 ≤ turns i (one_by_one 2)).
  { intros [|[|i]] Hi; cbn in Hi |- *; lia. }
  split; [|split].
  - split; [exact H1|]. split; [exact H2|].
    exact (proj2 (proj2 (GetPricesFor_some_fail ["apple"; "bad"]
                           Demo.interleaved Demo.cold)) rs H1 H2).
  - split; [exact H3|].
    exact (proj1 (GetPricesFor_some_fail ["apple"; "bad"] [] Demo.cold) H3).
  - exact (proj1 (proj2 (GetPricesFor_some_fail ["apple"; "bad"]
                           (one_by_one 2) Demo.cold)) H4).
Defined.

(** The batch with a failure at work: the price of ["apple"] comes back with
    the error of ["bad"], and nothing else. *)
Example GetPricesFor_some_fail_demo :
  (λ r, r.1) <$> GetPricesFor ["apple"; "bad"] Demo.interleaved Demo.cold
    = Some ([10%float],
            Some (errors_New "getting price from service : boom")).
Proof. vm_compute. reflexivity. Qed.

(** The refetch at work: the cache held 10, the upstream now says 20. *)
Example GetPriceFor_expired_refetch_demo :
  (GetPriceFor "apple" (Demo.warm 1005%Z)).1 = (20%float, None).
Proof. vm_compute. reflexivity. Qed.

End CacheFacts.

(** ** Where the starting revision differs *)

Module StarterFacts.
Import Starter.

Section WithService.

Context {ServiceState : Type}.
Implicit Types (w : @World ServiceState) (k : string).

(** A price found in the store is returned whatever its age: the lookup
    reads neither a clock nor [maxAge], and performs the load only. *)
Lemma GetPriceFor_serves_any_age k w (p : float64) :
  prices (cache w) !! k = Some (any_float64 p) →
  GetPriceFor k w = (Returns p None, emit (EvLoad k) w).
Proof.
  intros Hk. unfold GetPriceFor, st_bind, prices_Load. by rewrite Hk.
Qed.

(** The upstream service is reached only when the store has nothing for
    [k]; if it then fails, the store is left exactly as it was. *)
Lemma GetPriceFor_failure_keeps_store k w (p : float64) (e : error)
    (s' : ServiceState) :
  prices (cache w) !! k = None →
  PriceService_GetPriceFor (actualPriceService (cache w)) k (upstream w)
    = ((p, Some e), s') →
  (GetPriceFor k w).1
    = Returns 0%float
        (Some (fmt_Errorf_v "getting price from service : " (Error e))) ∧
  prices (cache (GetPriceFor k w).2) = prices (cache w).
Proof.
  intros Hk Hup.
  unfold GetPriceFor, st_bind, prices_Load, actualPriceService_GetPriceFor.
  rewrite Hk. cbn. by rewrite Hup.
Qed.

(** When the batch lookup reports an error it returns an empty slice: the
    prices collected from the goroutines that succeeded are dropped. *)
Lemma GetPricesFor_error_drops_prices (itemCodes : list string)
    (sched : list nat) w (res : list float64) (err : error) w' :
  GetPricesFor itemCodes sched w = Some ((res, Some err), w') → res = [].
Proof.
  unfold GetPricesFor. cbn.
  destruct (outcomes _) as [rs|]; [|done].
  destruct (existsb panicked rs); [done|].
  destruct (g_err _); by intros [= <- ?].
Qed.

End WithService.

(** ["apple"] is fetched and stored, ["bad"] fails: the error comes back
    with an empty slice. *)
Example GetPricesFor_error_drops_prices_demo :
  let r := GetPricesFor ["apple"; "bad"]
             [0; 1; 0; 1; 0; 1; 0; 1; 0; 1; 0; 0] Demo.starter_cold in
  (λ x, x.1) <$> r
    = Some ([], Some (errors_New "getting price from service : boom")) ∧
  (λ x, prices (cache x.2) !! "apple") <$> r
    = Some (Some (any_float64 10%float)).
Proof. vm_compute. split; reflexivity. Qed.

End StarterFacts.

(** ** Further properties of the finished implementation *)

Module CacheLaws.
Import Cache.

(** Unfold the monadic plumbing and the primitive operations. *)
Ltac st_unfold :=
  repeat (progress (cbn;
    unfold st_bind, st_ret, time_Now, prices_Load, get_maxAge,
      prices_Delete, actualPriceService_GetPriceFor, prices_Store)).

Section WithService.

Context {ServiceState : Type}.
Implicit Types (w : @World ServiceState) (k : string)
  (g : @Group ServiceState).

(** The three ways a single lookup can go, with the world each leaves. *)
Lemma GetPriceFor_hit k w (e : PriceCacheEntry) :
  prices (cache w) !! k = Some (any_PriceCacheEntry e) →
  valid (maxAge (cache w)) (clock w) e →
  GetPriceFor k w = ((price e, None), emit (EvLoad k) w).
Proof.
  intros Hk Hv. apply CacheFacts.Time_Before_valid in Hv.
  unfold GetPriceFor, st_bind, time_Now, prices_Load, get_maxAge.
  rewrite Hk. cbn. by rewrite Hv.
Qed.

Lemma GetPriceFor_foreign k w (v : any) :
  prices (cache w) !! k = Some v →
  (∀ e, v ≠ any_PriceCacheEntry e) →
  GetPriceFor k w = ((0%float, Some cast_error), emit (EvLoad k) w).
Proof.
  intros Hk Hv. unfold GetPriceFor, st_bind, time_Now, prices_Load.
  rewrite Hk. destruct v as [|e|f|s]; try done. by destruct (Hv e).
Qed.

Lemma GetPriceFor_miss k w :
  stale_or_absent k w →
  ∃ w0, GetPriceFor k w = fetch k (clock w) w0 ∧
        prices (cache w0) = delete k (prices (cache w)) ∧
        actualPriceService (cache w0) = actualPriceService (cache w) ∧
        maxAge (cache w0) = maxAge (cache w) ∧
        upstream w0 = upstream w ∧
        clock w0 = clock w ∧
        upstream_calls (trace w0) = upstream_calls (trace w).
Proof.
  intros [Hk | (e & Hk & Hexp)].
  - rewrite (CacheFacts.GetPriceFor_absent k w Hk).
    eexists. split; [reflexivity|]. cbn.
    rewrite CacheFacts.upstream_calls_app, app_nil_r.
    repeat split. symmetry. by apply delete_id.
  - rewrite (CacheFacts.GetPriceFor_expired k w e Hk Hexp).
    eexists. split; [reflexivity|]. cbn.
    rewrite !CacheFacts.upstream_calls_app. cbn. by rewrite !app_nil_r.
Qed.

Lemma lookup_cases k w :
  (∃ e, prices (cache w) !! k = Some (any_PriceCacheEntry e) ∧
        valid (maxAge (cache w)) (clock w) e) ∨
  (∃ v, prices (cache w) !! k = Some v ∧ ∀ e, v ≠ any_PriceCacheEntry e) ∨
  stale_or_absent k w.
Proof.
  unfold stale_or_absent.
  destruct (prices (cache w) !! k) as [[|e|f|s]|] eqn:Hk;
    try (right; left; eexists; split; [reflexivity|done]).
  - destruct (decide (clock w < timestamp e + maxAge (cache w))%Z).
    + left. by exists e.
    + right. right. right. by exists e.
  - right. right. by left.
Qed.

(** What a lookup for [k] can do to the store and to the upstream service,
    in every world. *)
Lemma GetPriceFor_effect k w :
  let w' := (GetPriceFor k w).2 in
  (prices (cache w') = prices (cache w) ∧
   upstream w' = upstream w ∧
   upstream_calls (trace w') = upstream_calls (trace w)) ∨
  (upstream w' = (upstream_answer k w).2 ∧
   upstream_calls (trace w') = upstream_calls (trace w) ++ [k] ∧
   match (upstream_answer k w).1.2 with
   | None =>
       prices (cache w')
         = <[k := any_PriceCacheEntry
                    {| price := (upstream_answer k w).1.1;
                       timestamp := clock w |}]> (prices (cache w))
   | Some _ => prices (cache w') = delete k (prices (cache w))
   end).
Proof.
  intros w'. subst w'.
  destruct (lookup_cases k w) as [(e & Hk & Hv)|[(v & Hk & Hv)|Hmiss]].
  - left. rewrite (GetPriceFor_hit k w e Hk Hv). cbn.
    rewrite CacheFacts.upstream_calls_app. cbn. by rewrite app_nil_r.
  - left. rewrite (GetPriceFor_foreign k w v Hk Hv). cbn.
    rewrite CacheFacts.upstream_calls_app. cbn. by rewrite app_nil_r.
  - right.
    destruct (GetPriceFor_miss k w Hmiss)
      as (w0 & -> & Hst & Hsvc & Hage & Hup & Hclk & Hcalls).
    rewrite CacheFacts.fetch_eq.
    assert (upstream_answer k w0 = upstream_answer k w) as ->
      by (unfold upstream_answer; by rewrite Hsvc, Hup).
    destruct (upstream_answer k w) as [[p [e|]] s]; cbn.
    + rewrite CacheFacts.upstream_calls_app, Hcalls. done.
    + rewrite !CacheFacts.upstream_calls_app, Hcalls, Hst. cbn.
      rewrite app_nil_r. split; [done|]. split; [done|].
      apply insert_delete_eq.
Qed.

Lemma GetPriceFor_miss_success k w (p : float64) (s' : ServiceState) :
  stale_or_absent k w →
  upstream_answer k w = ((p, None), s') →
  ∃ w1, GetPriceFor k w = ((p, None), w1) ∧
        prices (cache w1)
          = <[k := any_PriceCacheEntry
                     {| price := p; timestamp := clock w |}]>
              (prices (cache w)) ∧
        maxAge (cache w1) = maxAge (cache w) ∧
        upstream w1 = s' ∧
        upstream_calls (trace w1) = upstream_calls (trace w) ++ [k].
Proof.
  intros Hmiss Hans.
  destruct (GetPriceFor_miss k w Hmiss)
    as (w0 & -> & Hst & Hsvc & Hage & Hup & Hclk & Hcalls).
  rewrite CacheFacts.fetch_eq.
  assert (upstream_answer k w0 = upstream_answer k w) as ->
    by (unfold upstream_answer; by rewrite Hsvc, Hup).
  rewrite Hans. eexists. split; [reflexivity|]. cbn.
  rewrite !CacheFacts.upstream_calls_app, Hcalls, Hst. cbn.
  rewrite app_nil_r. split; [apply insert_delete_eq|done].
Qed.

(** A lookup for [k] leaves every other key of the store as it was. *)
Theorem GetPriceFor_other_keys k k' w :
  k' ≠ k →
  prices (cache (GetPriceFor k w).2) !! k' = prices (cache w) !! k'.
Proof.
  intros Hne.
  destruct (GetPriceFor_effect k w) as [(-> & _)|(_ & _ & Hst)]; [done|].
  destruct ((upstream_answer k w).1.2); rewrite Hst.
  - by apply lookup_delete_ne.
  - by apply lookup_insert_ne.
Qed.

(** A lookup for [k] calls the upstream service at most once, and then for
    [k]; when it does not call, the state of the service is untouched. *)
Theorem GetPriceFor_at_most_one_call k w :
  (upstream_calls (trace (GetPriceFor k w).2) = upstream_calls (trace w) ∧
   upstream (GetPriceFor k w).2 = upstream w) ∨
  (upstream_calls (trace (GetPriceFor k w).2)
     = upstream_calls (trace w) ++ [k] ∧
   upstream (GetPriceFor k w).2 = (upstream_answer k w).2).
Proof.
  destruct (GetPriceFor_effect k w) as [(_ & ? & ?)|(? & ? & _)]; auto.
Qed.

(** A slot that holds something else than a [PriceCacheEntry] makes the
    lookup fail with "error when casting": the upstream service is not
    asked and the slot is left as it is, so the lookup fails the same way
    at every later instant. *)
Theorem GetPriceFor_foreign_value k w (v : any) (t : Time) :
  prices (cache w) !! k = Some v →
  (∀ e, v ≠ any_PriceCacheEntry e) →
  let w' := (GetPriceFor k w).2 in
  (GetPriceFor k w).1 = (0%float, Some (errors_New "error when casting")) ∧
  cache w' = cache w ∧
  upstream w' = upstream w ∧
  upstream_calls (trace w') = upstream_calls (trace w) ∧
  (GetPriceFor k (set_clock t w')).1
    = (0%float, Some (errors_New "error when casting")).
Proof.
  intros Hk Hv w'. subst w'.
  rewrite (GetPriceFor_foreign k w v Hk Hv).
  rewrite (GetPriceFor_foreign k (set_clock t _) v) by done.
  cbn. rewrite CacheFacts.upstream_calls_app. cbn. by rewrite app_nil_r.
Qed.

(** Two lookups in a row.  After a lookup that fetched [p] for [k] at
    instant [clock w], a second lookup at any instant before
    [clock w + maxAge] returns [p] again without asking the upstream
    service. *)
Theorem GetPriceFor_again_within_maxAge k w (p : float64)
    (s' : ServiceState) (now' : Time) :
  stale_or_absent k w →
  upstream_answer k w = ((p, None), s') →
  (now' < clock w + maxAge (cache w))%Z →
  let w1 := set_clock now' (GetPriceFor k w).2 in
  (GetPriceFor k w).1 = (p, None) ∧
  (GetPriceFor k w1).1 = (p, None) ∧
  upstream_calls (trace (GetPriceFor k w1).2)
    = upstream_calls (trace w) ++ [k] ∧
  upstream (GetPriceFor k w1).2 = s'.
Proof.
  intros Hmiss Hans Hnow w1. subst w1.
  destruct (GetPriceFor_miss_success k w p s' Hmiss Hans)
    as (w1 & -> & Hst & Hage & Hup & Hcalls).
  change (((p, None), w1).2) with w1. split; [done|].
  rewrite (GetPriceFor_hit k (set_clock now' w1)
             {| price := p; timestamp := clock w |}).
  - cbn. rewrite CacheFacts.upstream_calls_app, Hcalls. cbn.
    by rewrite app_nil_r.
  - cbn. rewrite Hst. apply lookup_insert_eq.
  - unfold valid. cbn. by rewrite Hage.
Qed.

(** With a [maxAge] of zero or less nothing is ever served from the store:
    as long as the clock has not gone back behind the fetch time of the
    entry, every lookup asks the upstream service. *)
Theorem GetPriceFor_nonpositive_maxAge k w :
  (maxAge (cache w) ≤ 0)%Z →
  (prices (cache w) !! k = None ∨
   ∃ e, prices (cache w) !! k = Some (any_PriceCacheEntry e) ∧
        (timestamp e ≤ clock w)%Z) →
  upstream_calls (trace (GetPriceFor k w).2)
    = upstream_calls (trace w) ++ [k].
Proof.
  intros Hage Hk.
  assert (stale_or_absent k w) as Hmiss.
  { destruct Hk as [Hk|(e & Hk & Hts)]; [by left|].
    right. exists e. split; [done|]. unfold valid. lia. }
  destruct (GetPriceFor_miss k w Hmiss)
    as (w0 & -> & Hst & Hsvc & Hage' & Hup & Hclk & Hcalls).
  rewrite CacheFacts.fetch_eq.
  destruct (upstream_answer k w0) as [[p [e|]] s]; cbn;
    rewrite !CacheFacts.upstream_calls_app, Hcalls; cbn;
    by rewrite ?app_nil_r.
Qed.

(** The first lookup on a new cache always goes to the upstream service;
    afterwards the store holds the fetched entry for [k] and nothing else,
    or nothing at all when the service failed. *)
Theorem first_lookup_on_new_cache (svc : PriceService) (age : Duration)
    (s : ServiceState) (t : Time) k :
  let w := fresh svc age s t in
  let w' := (GetPriceFor k w).2 in
  upstream_calls (trace w') = [k] ∧
  match (upstream_answer k w).1 with
  | (p, None) =>
      (GetPriceFor k w).1 = (p, None) ∧
      prices (cache w')
        = {[ k := any_PriceCacheEntry {| price := p; timestamp := t |} ]}
  | (_, Some e) =>
      (GetPriceFor k w).1
        = (0%float,
           Some (errors_New
                   (String.append "getting price from service : "
                      (Error e)))) ∧
      prices (cache w') = ∅
  end.
Proof.
  intros w w'. subst w'.
  rewrite (CacheFacts.GetPriceFor_absent k w) by apply lookup_empty.
  rewrite CacheFacts.fetch_eq. unfold upstream_answer. cbn.
  destruct (PriceService_GetPriceFor svc k s) as [[p [e|]] s1]; cbn; done.
Qed.

(** *** The batch lookup, whatever the schedule *)

(** One atomic action of a goroutine: it touches the store only at its own
    item code, calls the upstream service at most for that item code, and
    once it has called it has no call left. *)
Lemma GetPriceFor_step_effect (wk : Worker) w :
  (worker_item (GetPriceFor_step wk w).1 = None ∨
   worker_item (GetPriceFor_step wk w).1 = worker_item wk) ∧
  ((upstream_calls (trace (GetPriceFor_step wk w).2)
      = upstream_calls (trace w) ∧
    may_call (GetPriceFor_step wk w).1 ≤ may_call wk) ∨
   (∃ ic, worker_item wk = Some ic ∧
          upstream_calls (trace (GetPriceFor_step wk w).2)
            = upstream_calls (trace w) ++ [ic] ∧
          may_call wk = 1 ∧ may_call (GetPriceFor_step wk w).1 = 0)) ∧
  (∀ k, worker_item wk ≠ Some k →
        prices (cache (GetPriceFor_step wk w).2) !! k
          = prices (cache w) !! k).
Proof.
  destruct wk as [ic|ic now|ic now|ic now|ic now p|r|r];
    st_unfold; rewrite ?CacheFacts.upstream_calls_app; cbn;
    rewrite ?app_nil_r.
  - split; [by right|]. split; [by left|done].
  - destruct (prices (cache w) !! ic) as [[|e|f|s]|];
      st_unfold; rewrite ?CacheFacts.upstream_calls_app; cbn;
      rewrite ?app_nil_r;
      try (split; [by left|]; split; [left; split; [done|lia]|done]).
    + destruct (Time_Before _ _); cbn;
        rewrite ?CacheFacts.upstream_calls_app; cbn; rewrite ?app_nil_r.
      * split; [by left|]. split; [left; split; [done|lia]|done].
      * split; [by right|]. split; [by left|done].
    + split; [by right|]. split; [by left|done].
  - split; [by right|]. split; [by left|].
    intros k Hk. apply lookup_delete_ne. congruence.
  - destruct (PriceService_GetPriceFor _ _ _) as [[p [e|]] s]; cbn;
      rewrite ?CacheFacts.upstream_calls_app; cbn.
    + split; [by left|]. split; [|done]. right. by exists ic.
    + split; [by right|]. split; [|done]. right. by exists ic.
  - split; [by left|]. split; [by left|].
    intros k Hk. apply lookup_insert_ne. congruence.
  - split; [by left|]. split; [by left|done].
  - split; [by left|]. split; [by left|done].
Qed.


(** What each move of the scheduler does to the goroutine it runs. *)
Lemma move_worker g i wk :
  workers g !! i = Some wk →
  ∃ wk',
    workers (move g (Run i)) = <[i := wk']> (workers g) ∧
    ((world (move g (Run i)) = world g ∧
      worker_item wk' = None ∧ may_call wk' ≤ may_call wk) ∨
     (world (move g (Run i)) = (GetPriceFor_step wk (world g)).2 ∧
      wk' = (GetPriceFor_step wk (world g)).1)).
Proof.
  intros Hi.
  destruct (settled wk) as [|r0 rest] eqn:Hwk.
  - assert ((∃ r, wk = AtReturn r) ∨ ∀ r, wk ≠ AtReturn r)
      as [[[p [e|]] ->]|Hret] by (destruct wk; eauto).
    + cbn. rewrite Hi. eexists. split; [reflexivity|]. left. cbn. auto.
    + cbn. rewrite Hi. eexists. split; [reflexivity|]. left. cbn. auto.
    + rewrite (CacheFacts.move_step g i wk Hi Hwk Hret). cbn.
      eexists. split; [reflexivity|]. by right.
  - destruct wk; try done. cbn. rewrite Hi. exists (Done r).
    split; [by rewrite list_insert_id|]. left. cbn. auto.
Qed.


(** A batch leaves every key it was not asked for as it was in the store,
    at every point of every schedule. *)
Theorem GetPricesFor_other_keys (itemCodes : list string)
    (sched : list Move) w k :
  k ∉ itemCodes →
  prices (cache (world (play sched (launch itemCodes w)))) !! k
    = prices (cache w) !! k.
Proof.
  intros Hk.
  assert (∀ g,
    prices (cache (world g)) !! k = prices (cache w) !! k →
    Forall (λ wk, ∀ ic, worker_item wk = Some ic → ic ∈ itemCodes)
      (workers g) →
    prices (cache (world (play sched g))) !! k = prices (cache w) !! k)
    as Hgen.
  { induction sched as [|mv sched IH]; intros g Hst Hws; [done|].
    change (play (mv :: sched) g) with (play sched (move g mv)).
    destruct mv as [t|i]; [by apply IH|].
    destruct (workers g !! i) as [wk|] eqn:Hi;
      [|apply IH; cbn; rewrite Hi; done].
    pose proof (Forall_lookup_1 _ _ _ _ Hws Hi) as Hwk.
    destruct (move_worker g i wk Hi) as (wk' & Hws' & [(Hw & Hit & _)|(Hw & ->)]).
    - apply IH; rewrite ?Hws', ?Hw; [done|].
      apply Forall_insert; [done|]. intros ic. by rewrite Hit.
    - destruct (GetPriceFor_step_effect wk (world g))
        as (Hitem & _ & Hframe).
      apply IH; rewrite ?Hws', ?Hw.
      + rewrite Hframe; [done|]. intros Heq. apply Hk, Hwk, Heq.
      + apply Forall_insert; [done|]. intros ic.
        destruct Hitem as [->| ->]; [done|apply Hwk]. }
  apply Hgen; [done|].
  cbn. apply Forall_fmap, Forall_forall. intros ic Hic ic' [= <-]. done.
Qed.

(** *** The batch lookup run one goroutine after the other *)

(** Running goroutine [i] of a group is running it in a group of its own. *)
Lemma move_solo g i wk :
  workers g !! i = Some wk →
  ∃ wk1,
    workers (move {| world := world g; results := results g;
                     g_err := g_err g; observed := observed g;
                     workers := [wk] |} (Run 0)) = [wk1] ∧
    move g (Run i) =
      let g1 := move {| world := world g; results := results g;
                        g_err := g_err g; observed := observed g;
                        workers := [wk] |} (Run 0) in
      {| world := world g1; results := results g1; g_err := g_err g1;
         observed := observed g1; workers := <[i := wk1]> (workers g) |}.
Proof.
  intros Hi. cbn. rewrite Hi.
  destruct wk as [ic|ic now|ic now|ic now|ic now p|[p [e|]]|r];
    try destruct (GetPriceFor_step _ _) as [wk' w'];
    cbn; eexists; (split; [reflexivity|]); try reflexivity.
  destruct g; cbn in *. by rewrite list_insert_id.
Qed.

Lemma group_eta g (ws : list Worker) :
  workers g = ws →
  {| world := world g; results := results g; g_err := g_err g;
     observed := observed g; workers := ws |} = g.
Proof. intros <-. by destruct g. Qed.

Lemma play_solo n g i wk :
  workers g !! i = Some wk →
  ∃ wk1,
    workers (play (replicate n (Run 0))
               {| world := world g; results := results g;
                  g_err := g_err g; observed := observed g;
                  workers := [wk] |}) = [wk1] ∧
    play (replicate n (Run i)) g =
      let g1 := play (replicate n (Run 0))
                  {| world := world g; results := results g;
                     g_err := g_err g; observed := observed g;
                     workers := [wk] |} in
      {| world := world g1; results := results g1; g_err := g_err g1;
         observed := observed g1; workers := <[i := wk1]> (workers g) |}.
Proof.
  revert g wk. induction n as [|n IH]; intros g wk Hi.
  { exists wk. split; [done|]. cbn. destruct g; cbn in *.
    by rewrite list_insert_id. }
  pose proof (lookup_lt_Some _ _ _ Hi) as Hlt.
  destruct (move_solo g i wk Hi) as (wk1 & Hone & Hmove).
  change (replicate (S n) (Run i)) with (Run i :: replicate n (Run i)).
  change (replicate (S n) (Run 0)) with (Run 0 :: replicate n (Run 0)).
  change (play (Run i :: replicate n (Run i)) g)
    with (play (replicate n (Run i)) (move g (Run i))).
  set (solo := {| world := world g; results := results g;
                  g_err := g_err g; observed := observed g;
                  workers := [wk] |}) in *.
  change (play (Run 0 :: replicate n (Run 0)) solo)
    with (play (replicate n (Run 0)) (move solo (Run 0))).
  destruct (IH (move g (Run i)) wk1) as (wk2 & Htwo & Hplay).
  { rewrite Hmove. cbn. by apply list_lookup_insert_eq. }
  assert ({| world := world (move g (Run i));
             results := results (move g (Run i));
             g_err := g_err (move g (Run i));
             observed := observed (move g (Run i));
             workers := [wk1] |} = move solo (Run 0)) as Heq.
  { rewrite Hmove. cbn. by apply group_eta. }
  rewrite Heq in Htwo, Hplay.
  exists wk2. split; [done|]. rewrite Hplay. cbv zeta.
  rewrite Hmove. cbv zeta. cbn [workers].
  by rewrite list_insert_insert_eq.
Qed.

Lemma steps_return n (r : float64 * option error) w :
  steps n (AtReturn r) w = (AtReturn r, w).
Proof. induction n as [|n IH]; [done|]. cbn. by rewrite <- IH. Qed.

Lemma steps_done n (r : float64 * option error) w :
  steps n (Done r) w = (Done r, w).
Proof. induction n as [|n IH]; [done|]. cbn. by rewrite <- IH. Qed.

Lemma play_done_idle n w (res : list float64) (first : option error)
    (obs : list error) (r : float64 * option error) :
  play (replicate n (Run 0))
    {| world := w; results := res; g_err := first; observed := obs;
       workers := [Done r] |}
  = {| world := w; results := res; g_err := first; observed := obs;
       workers := [Done r] |}.
Proof. induction n as [|n IH]; [done|]. exact IH. Qed.

(** A goroutine on its own: once its atomic actions have reached the return
    of [GetPriceFor], one more turn hands the price or the error over, and
    further turns change nothing. *)
Lemma solo_until_return n (wk : Worker) w (res : list float64)
    (first : option error) (obs : list error) (r : float64 * option error) :
  (steps n wk w).1 = AtReturn r →
  play (replicate (S n) (Run 0))
    {| world := w; results := res; g_err := first; observed := obs;
       workers := [wk] |}
  = {| world := (steps n wk w).2;
       results := match r.2 with
                  | None => res ++ [r.1]
                  | Some _ => res
                  end;
       g_err := match r.2 with
                | None => first
                | Some e => match first with
                            | None => Some e
                            | Some f => Some f
                            end
                end;
       observed := match r.2 with
                   | None => obs
                   | Some e => obs ++ [e]
                   end;
       workers := [Done r] |}.
Proof.
  revert wk w. induction n as [|n IH]; intros wk w Hret.
  { cbn in Hret. subst wk. by destruct r as [p [e|]]. }
  assert ((∃ r0, wk = AtReturn r0) ∨ (∃ r0, wk = Done r0) ∨
          (settled wk = [] ∧ ∀ r0, wk ≠ AtReturn r0))
    as [[r0 ->]|[[r0 ->]|[Hwk Hnot]]] by (destruct wk; eauto).
  - rewrite steps_return in Hret |- *. injection Hret as ->.
    change (replicate (S (S n)) (Run 0))
      with (Run 0 :: replicate (S n) (Run 0)).
    change (play (Run 0 :: ?l) ?g) with (play l (move g (Run 0))).
    destruct r as [p [e|]]; cbn [move]; cbn -[play replicate];
      apply play_done_idle.
  - by rewrite steps_done in Hret.
  - change (replicate (S (S n)) (Run 0))
      with (Run 0 :: replicate (S n) (Run 0)).
    change (play (Run 0 :: ?l) ?g) with (play l (move g (Run 0))).
    rewrite (CacheFacts.move_step
               {| world := w; results := res; g_err := first;
                  observed := obs; workers := [wk] |} 0 wk eq_refl Hwk Hnot).
    cbn -[play replicate GetPriceFor_step steps].
    cbn [steps] in Hret |- *. unfold st_bind in Hret |- *.
    destruct (GetPriceFor_step wk w) as [wk' w']. by apply IH.
Qed.

(** Six turns take a goroutine from its start to its end: the world is the
    one [GetPriceFor] leaves, and the price or the error has been handed
    over. *)
Lemma six_turns_solo (ic : string) w (res : list float64)
    (first : option error) (obs : list error) :
  play (replicate 6 (Run 0))
    {| world := w; results := res; g_err := first; observed := obs;
       workers := [AtNow ic] |}
  = {| world := (GetPriceFor ic w).2;
       results := match (GetPriceFor ic w).1.2 with
                  | None => res ++ [(GetPriceFor ic w).1.1]
                  | Some _ => res
                  end;
       g_err := match (GetPriceFor ic w).1.2 with
                | None => first
                | Some e => match first with
                            | None => Some e
                            | Some f => Some f
                            end
                end;
       observed := match (GetPriceFor ic w).1.2 with
                   | None => obs
                   | Some e => obs ++ [e]
                   end;
       workers := [Done (GetPriceFor ic w).1] |}.
Proof.
  pose proof (CacheFacts.steps_GetPriceFor ic w) as Hsteps.
  rewrite (solo_until_return 5 (AtNow ic) w res first obs
             (GetPriceFor ic w).1) by (by rewrite Hsteps).
  by rewrite Hsteps.
Qed.

Lemma six_turns g i (ic : string) :
  workers g !! i = Some (AtNow ic) →
  play (replicate 6 (Run i)) g
  = {| world := (GetPriceFor ic (world g)).2;
       results := match (GetPriceFor ic (world g)).1.2 with
                  | None => results g ++ [(GetPriceFor ic (world g)).1.1]
                  | Some _ => results g
                  end;
       g_err := match (GetPriceFor ic (world g)).1.2 with
                | None => g_err g
                | Some e => match g_err g with
                            | None => Some e
                            | Some f => Some f
                            end
                end;
       observed := match (GetPriceFor ic (world g)).1.2 with
                   | None => observed g
                   | Some e => observed g ++ [e]
                   end;
       workers := <[i := Done (GetPriceFor ic (world g)).1]> (workers g) |}.
Proof.
  intros Hi. destruct (play_solo 6 g i _ Hi) as (wk1 & Hone & ->).
  rewrite six_turns_solo in Hone |- *. cbn in Hone.
  injection Hone as <-. reflexivity.
Qed.

Lemma play_app (s1 s2 : list Move) g :
  play (s1 ++ s2) g = play s2 (play s1 g).
Proof. apply foldl_app. Qed.

Lemma one_by_one_from (ks : list string) (a : nat) g :
  (∀ j ic, ks !! j = Some ic → workers g !! (a + j) = Some (AtNow ic)) →
  let g' := play (seq a (length ks) ≫= λ i, replicate 6 (Run i)) g in
  ((results g', g_err g'), world g')
    = in_turn ks (results g) (g_err g) (world g) ∧
  length (workers g') = length (workers g) ∧
  (∀ j, j < a → workers g' !! j = workers g !! j) ∧
  (∀ j, j < length ks → ∃ r, workers g' !! (a + j) = Some (Done r)).
Proof.
  revert a g. induction ks as [|ic rest IH]; intros a g Hws.
  { cbn. split; [done|]. split; [done|]. split; [done|].
    intros j Hj. lia. }
  cbn [length seq]. rewrite bind_cons, play_app.
  assert (workers g !! a = Some (AtNow ic)) as Hi.
  { specialize (Hws 0 ic eq_refl). by rewrite Nat.add_0_r in Hws. }
  pose proof (lookup_lt_Some _ _ _ Hi) as Hlt.
  rewrite (six_turns g a ic Hi).
  set (g1 := {| world := (GetPriceFor ic (world g)).2 |}).
  destruct (IH (S a) g1) as (Hres & Hlen & Hlow & Hdone).
  { intros j ic' Hj. subst g1. cbn.
    rewrite list_lookup_insert_ne by lia.
    specialize (Hws (S j) ic' Hj). by rewrite Nat.add_succ_r in Hws. }
  cbv zeta. split; [|split; [|split]].
  - rewrite Hres. subst g1. cbn [results g_err world in_turn].
    by destruct (GetPriceFor ic (world g)) as [[p [e|]] w'].
  - rewrite Hlen. subst g1. cbn. by rewrite length_insert.
  - intros j Hj. rewrite Hlow by lia. subst g1. cbn.
    by rewrite list_lookup_insert_ne by lia.
  - intros [|j] Hj.
    + rewrite Nat.add_0_r, Hlow by lia. subst g1. cbn.
      rewrite list_lookup_insert_eq by done. eauto.
    + rewrite Nat.add_succ_r. apply Hdone. cbn in Hj. lia.
Qed.

(** Run one goroutine after the other, in the order of the item codes, the
    batch is the sequence of single lookups: each lookup sees the world the
    previous one left, the prices come back in the order of the item codes,
    and the error is that of the first item code that failed. *)
Theorem GetPricesFor_one_by_one (itemCodes : list string) w :
  GetPricesFor itemCodes (one_by_one (length itemCodes)) w
    = Some (in_turn itemCodes [] None w).
Proof.
  destruct (one_by_one_from itemCodes 0 (launch itemCodes w))
    as (Hres & Hlen & _ & Hdone).
  { intros j ic Hj. cbn. by rewrite list_lookup_fmap, Hj. }
  unfold GetPricesFor, one_by_one. cbv zeta in *.
  set (g' := play _ _) in *.
  assert (is_Some (outcomes g')) as [rs Hrs].
  { apply mapM_is_Some, Forall_lookup. intros i wk Hi.
    pose proof (lookup_lt_Some _ _ _ Hi) as Hlt.
    rewrite Hlen in Hlt. cbn in Hlt. rewrite length_fmap in Hlt.
    destruct (Hdone i Hlt) as [r Hr]. cbn in Hr.
    rewrite Hi in Hr. injection Hr as ->. by eexists. }
  rewrite Hrs. cbn in Hres. rewrite <- Hres. by destruct (g_err g').
Qed.

(** *** The batch lookup under particular schedules *)

(** Under every schedule that gives each goroutine six turns the batch
    returns: every goroutine has finished, the slice is a permutation of the
    prices of the lookups that succeeded, and there is an error exactly
    when some lookup failed. *)
Theorem GetPricesFor_fair_schedule (itemCodes : list string)
    (sched : list Move) w :
  (∀ i, i < length itemCodes → 6 ≤ turns i sched) →
  ∃ rs res err w',
    outcomes (play sched (launch itemCodes w)) = Some rs ∧
    length rs = length itemCodes ∧
    GetPricesFor itemCodes sched w = Some ((res, err), w') ∧
    res ≡ₚ successes rs ∧
    (err = None ↔ failures rs = []).
Proof.
  intros Hfair.
  pose proof (CacheFacts.GetPricesFor_returns_when_fair itemCodes sched w
                Hfair) as Hret.
  destruct (CacheFacts.play_consistent sched _
              (CacheFacts.launch_consistent itemCodes w))
    as (Hres & Hobs & Herr).
  unfold GetPricesFor in *. cbv zeta in *.
  destruct (outcomes _) as [rs|] eqn:Hrs; [|by destruct Hret].
  rewrite (CacheFacts.outcomes_settled _ _ Hrs) in Hres, Hobs.
  assert (length rs = length itemCodes) as Hlen.
  { rewrite <- (length_mapM _ _ _ Hrs), CacheFacts.play_workers_length.
    cbn. by rewrite length_fmap. }
  assert (g_err (play sched (launch itemCodes w)) = None
          ↔ failures rs = []) as Hnone.
  { rewrite Herr. split.
    - intros Hhd. apply Permutation_nil_r. rewrite <- Hobs.
      by destruct (observed _).
    - intros Hnil. rewrite Hnil in Hobs.
      apply Permutation_nil_r in Hobs. by rewrite Hobs. }
  destruct (g_err _) as [e|] eqn:He; eexists rs, _, _, _;
    (split; [done|]; split; [done|]; split; [reflexivity|]; split;
      [done|exact Hnone]).
Qed.

(** Moves of a group of two goroutines, and the atomic actions, as
    equations. *)
Lemma move_first (a b : Worker) w (res : list float64)
    (first : option error) (obs : list error) :
  settled a = [] → (∀ r, a ≠ AtReturn r) →
  move {| world := w; results := res; g_err := first; observed := obs;
          workers := [a; b] |} (Run 0)
  = {| world := (GetPriceFor_step a w).2; results := res; g_err := first;
       observed := obs; workers := [(GetPriceFor_step a w).1; b] |}.
Proof. intros Ha Hret. by rewrite (CacheFacts.move_step _ 0 a). Qed.

Lemma move_second (a b : Worker) w (res : list float64)
    (first : option error) (obs : list error) :
  settled b = [] → (∀ r, b ≠ AtReturn r) →
  move {| world := w; results := res; g_err := first; observed := obs;
          workers := [a; b] |} (Run 1)
  = {| world := (GetPriceFor_step b w).2; results := res; g_err := first;
       observed := obs; workers := [a; (GetPriceFor_step b w).1] |}.
Proof. intros Hb Hret. by rewrite (CacheFacts.move_step _ 1 b). Qed.

Lemma step_load_absent (ic : string) (now : Time) w :
  prices (cache w) !! ic = None →
  GetPriceFor_step (AtLoad ic now) w = (AtCall ic now, emit (EvLoad ic) w).
Proof. intros Hk. cbn. unfold st_bind, prices_Load. by rewrite Hk. Qed.

Lemma step_load_expired (ic : string) (now : Time) w (e : PriceCacheEntry) :
  prices (cache w) !! ic = Some (any_PriceCacheEntry e) →
  Time_Before now (Time_Add (timestamp e) (maxAge (cache w))) = false →
  GetPriceFor_step (AtLoad ic now) w = (AtDelete ic now, emit (EvLoad ic) w).
Proof.
  intros Hk Hexp. cbn. unfold st_bind, prices_Load, get_maxAge.
  rewrite Hk. cbn. by rewrite Hexp.
Qed.

Lemma step_call (ic : string) (now : Time) w (p : float64)
    (err : option error) (s : ServiceState) :
  PriceService_GetPriceFor (actualPriceService (cache w)) ic (upstream w)
    = ((p, err), s) →
  GetPriceFor_step (AtCall ic now) w
  = (match err with
     | Some e =>
         AtReturn (0%float,
                   Some (fmt_Errorf_v "getting price from service : "
                           (Error e)))
     | None => AtStore ic now p
     end, emit (EvCall ic) (set_upstream s w)).
Proof.
  intros Hans. cbn. unfold st_bind, actualPriceService_GetPriceFor.
  rewrite Hans. by destruct err.
Qed.

Lemma step_now (ic : string) w :
  GetPriceFor_step (AtNow ic) w = (AtLoad ic (clock w), w).
Proof. reflexivity. Qed.

Lemma step_delete (ic : string) (now : Time) w :
  GetPriceFor_step (AtDelete ic now) w
  = (AtCall ic now,
     emit (EvDelete ic) (set_prices (delete ic (prices (cache w))) w)).
Proof. reflexivity. Qed.

Lemma step_store (ic : string) (now : Time) (p : float64) w :
  GetPriceFor_step (AtStore ic now p) w
  = (AtReturn (p, None),
     emit (EvStore ic (any_PriceCacheEntry
                         {| price := p; timestamp := now |}))
       (set_prices
          (<[ic := any_PriceCacheEntry {| price := p; timestamp := now |}]>
             (prices (cache w))) w)).
Proof. reflexivity. Qed.

Ltac fields :=
  cbn [world results g_err observed workers fst snd prices cache upstream
       clock trace maxAge actualPriceService emit set_prices set_upstream
       set_clock].

Ltac settle :=
  fields;
  repeat (progress (rewrite ?step_now, ?step_delete, ?step_store; fields)).

Ltac first_moves :=
  rewrite move_first by (done || (intros ?; discriminate)); settle.

Ltac second_moves :=
  rewrite move_second by (done || (intros ?; discriminate)); settle.

Lemma move_first_price (p : float64) (b : Worker) w (res : list float64)
    (first : option error) (obs : list error) :
  move {| world := w; results := res; g_err := first; observed := obs;
          workers := [AtReturn (p, None); b] |} (Run 0)
  = {| world := w; results := res ++ [p]; g_err := first; observed := obs;
       workers := [Done (p, None); b] |}.
Proof. reflexivity. Qed.

Lemma move_second_price (p : float64) (a : Worker) w (res : list float64)
    (first : option error) (obs : list error) :
  move {| world := w; results := res; g_err := first; observed := obs;
          workers := [a; AtReturn (p, None)] |} (Run 1)
  = {| world := w; results := res ++ [p]; g_err := first; observed := obs;
       workers := [a; Done (p, None)] |}.
Proof. reflexivity. Qed.

Lemma move_first_error (p : float64) (e : error) (b : Worker) w
    (res : list float64) (first : option error) (obs : list error) :
  move {| world := w; results := res; g_err := first; observed := obs;
          workers := [AtReturn (p, Some e); b] |} (Run 0)
  = {| world := w; results := res;
       g_err := match first with None => Some e | Some f => Some f end;
       observed := obs ++ [e];
       workers := [Done (p, Some e); b] |}.
Proof. reflexivity. Qed.

Lemma move_second_error (p : float64) (e : error) (a : Worker) w
    (res : list float64) (first : option error) (obs : list error) :
  move {| world := w; results := res; g_err := first; observed := obs;
          workers := [a; AtReturn (p, Some e)] |} (Run 1)
  = {| world := w; results := res;
       g_err := match first with None => Some e | Some f => Some f end;
       observed := obs ++ [e];
       workers := [a; Done (p, Some e)] |}.
Proof. reflexivity. Qed.

Lemma move_first_idle (r : float64 * option error) (b : Worker) w
    (res : list float64) (first : option error) (obs : list error) :
  move {| world := w; results := res; g_err := first; observed := obs;
          workers := [Done r; b] |} (Run 0)
  = {| world := w; results := res; g_err := first; observed := obs;
       workers := [Done r; b] |}.
Proof. reflexivity. Qed.

Lemma move_second_idle (r : float64 * option error) (a : Worker) w
    (res : list float64) (first : option error) (obs : list error) :
  move {| world := w; results := res; g_err := first; observed := obs;
          workers := [a; Done r] |} (Run 1)
  = {| world := w; results := res; g_err := first; observed := obs;
       workers := [a; Done r] |}.
Proof. reflexivity. Qed.

(** The innermost move of a schedule that is being played. *)
Ltac advance :=
  first [ rewrite move_first_price | rewrite move_second_price
        | rewrite move_first_error | rewrite move_second_error
        | rewrite move_first_idle | rewrite move_second_idle
        | first_moves | second_moves ].

(** Two lookups for the same missing item in one batch can both reach the
    upstream service: when both goroutines load before either stores,
    nothing makes the second wait for the first. *)
Theorem GetPricesFor_same_item_twice k w :
  prices (cache w) !! k = None →
  upstream_calls (trace (world (play alternating (launch [k; k] w))))
    = upstream_calls (trace w) ++ [k; k] ∧
  is_Some (GetPricesFor [k; k] alternating w).
Proof.
  intros Hk.
  assert (∃ g, play alternating (launch [k; k] w) = g ∧
               upstream_calls (trace (world g))
                 = upstream_calls (trace w) ++ [k; k] ∧
               ∃ r1 r2, workers g = [Done r1; Done r2]) as (g & Hg & Hcalls & r1 & r2 & Hws).
  { unfold alternating, launch, play. cbn [fmap list_fmap foldl].
    (* both read the clock, both load and miss *)
    first_moves. second_moves.
    first_moves. rewrite (step_load_absent k _ w Hk). settle.
    second_moves. rewrite (step_load_absent k) by (fields; exact Hk).
    settle.
    (* both call the upstream service *)
    destruct (PriceService_GetPriceFor (actualPriceService (cache w)) k
                (upstream w)) as [[p1 e1] s1] eqn:Hans1.
    first_moves. rewrite (step_call k _ _ p1 e1 s1) by (fields; exact Hans1).
    settle.
    destruct (PriceService_GetPriceFor (actualPriceService (cache w)) k s1)
      as [[p2 e2] s2] eqn:Hans2.
    destruct e1 as [e1|], e2 as [e2|];
      second_moves;
      rewrite (step_call k _ _ p2 _ s2) by (fields; exact Hans2);
      settle;
      do 6 advance;
      (eexists; split; [reflexivity|]; fields;
       rewrite !CacheFacts.upstream_calls_app;
       cbn [upstream_calls omap]; rewrite ?app_nil_r;
       rewrite <- ?app_assoc; split; [reflexivity|eauto]). }
  split; [by rewrite Hg|].
  unfold GetPricesFor, outcomes. cbv zeta. rewrite Hg, Hws. cbn.
  destruct (g_err g); eauto.
Qed.

(** The delete of an expired entry is unconditional, so it can remove a
    fresh one.  Two goroutines for the same item both find the expired
    entry; the second refetches and stores; the first then deletes, and its
    own upstream call fails.  The batch returns the fresh price together
    with the error, and the store is left without an entry for the item. *)
Theorem GetPricesFor_evicts_fresh_entry k w (e : PriceCacheEntry)
    (p1 p2 : float64) (e2 : error) (s1 s2 : ServiceState) :
  prices (cache w) !! k = Some (any_PriceCacheEntry e) →
  ¬ valid (maxAge (cache w)) (clock w) e →
  upstream_answer k w = ((p1, None), s1) →
  PriceService_GetPriceFor (actualPriceService (cache w)) k s1
    = ((p2, Some e2), s2) →
  ∃ w',
    GetPricesFor [k; k] second_overtakes w
      = Some (([p1],
               Some (fmt_Errorf_v "getting price from service : "
                       (Error e2))), w') ∧
    prices (cache w') !! k = None ∧
    upstream_calls (trace w') = upstream_calls (trace w) ++ [k; k].
Proof.
  intros Hk Hexp Hans1 Hans2.
  apply CacheFacts.Time_Before_expired in Hexp.
  unfold upstream_answer in Hans1.
  assert (∃ w',
    play second_overtakes (launch [k; k] w)
    = {| world := w'; results := [p1];
         g_err := Some (fmt_Errorf_v "getting price from service : "
                          (Error e2));
         observed := [fmt_Errorf_v "getting price from service : "
                        (Error e2)];
         workers :=
           [Done (0%float,
                  Some (fmt_Errorf_v "getting price from service : "
                          (Error e2)));
            Done (p1, None)] |} ∧
    prices (cache w') !! k = None ∧
    upstream_calls (trace w') = upstream_calls (trace w) ++ [k; k])
    as (w' & Hplay & Hgone & Hcalls).
  { unfold second_overtakes, launch, play. cbn [fmap list_fmap foldl].
    (* both read the clock, both find the expired entry *)
    first_moves. second_moves.
    first_moves. rewrite (step_load_expired k _ _ e) by (fields; done).
    settle.
    second_moves. rewrite (step_load_expired k _ _ e) by (fields; done).
    settle.
    (* the second deletes, refetches, stores and appends *)
    second_moves.
    second_moves.
    rewrite (step_call k _ _ p1 None s1) by (fields; exact Hans1). settle.
    second_moves. advance.
    (* the first deletes the fresh entry and fails to refetch *)
    first_moves.
    first_moves.
    rewrite (step_call k _ _ p2 (Some e2) s2) by (fields; exact Hans2).
    settle. advance.
    eexists. split; [reflexivity|]. fields. split.
    - apply lookup_delete_eq.
    - rewrite !CacheFacts.upstream_calls_app.
      cbn [upstream_calls omap]. rewrite ?app_nil_r.
      by rewrite <- ?app_assoc. }
  exists w'. unfold GetPricesFor. cbv zeta. by rewrite Hplay.
Qed.

End WithService.

Section Warm.

Context {ServiceState : Type}.
Implicit Types (w : @World ServiceState) (g : @Group ServiceState).

(** A batch whose items are all in the store, valid until [bound], run
    while the clock stays before [bound]: at every point of every such
    schedule the store and the upstream service are untouched, no upstream
    call has been made and no error has been observed; and when the
    goroutines have finished, each lookup has returned the price the store
    held for its item. *)
Theorem GetPricesFor_all_cached (itemCodes : list string)
    (sched : list Move) w (bound : Time) :
  (clock w < bound)%Z →
  quiet_before bound sched →
  (∀ k, k ∈ itemCodes →
        ∃ e, prices (cache w) !! k = Some (any_PriceCacheEntry e) ∧
             (bound ≤ timestamp e + maxAge (cache w))%Z) →
  let g := play sched (launch itemCodes w) in
  cache (world g) = cache w ∧
  upstream (world g) = upstream w ∧
  upstream_calls (trace (world g)) = upstream_calls (trace w) ∧
  g_err g = None ∧
  ∀ rs, outcomes g = Some rs →
        Forall2 (served_from (prices (cache w))) itemCodes rs.
Proof.
  intros Hclock Hquiet Hcached g.
  assert (∀ g0,
    cache (world g0) = cache w → upstream (world g0) = upstream w →
    upstream_calls (trace (world g0)) = upstream_calls (trace w) →
    (clock (world g0) < bound)%Z → g_err g0 = None →
    Forall2 (hitting (prices (cache w)) bound) itemCodes (workers g0) →
    cache (world (play sched g0)) = cache w ∧
    upstream (world (play sched g0)) = upstream w ∧
    upstream_calls (trace (world (play sched g0)))
      = upstream_calls (trace w) ∧
    g_err (play sched g0) = None ∧
    Forall2 (hitting (prices (cache w)) bound) itemCodes
      (workers (play sched g0))) as Hgen.
  { clear g. induction Hquiet as [|mv sched Hmv Hquiet IH];
      intros g0 Hc Hu Htr Hclk Herr Hws; [done|].
    change (play (mv :: sched) g0) with (play sched (move g0 mv)).
    destruct mv as [t|i]; [by apply IH|].
    destruct (workers g0 !! i) as [wk|] eqn:Hi;
      [|apply IH; cbn; rewrite Hi; done].
    destruct (Forall2_lookup_r _ _ _ _ _ Hws Hi) as (ic0 & Hic0 & Hwk).
    assert (∀ wk', hitting (prices (cache w)) bound ic0 wk' →
              Forall2 (hitting (prices (cache w)) bound) itemCodes
                (<[i := wk']> (workers g0))) as Hins.
    { intros wk' Hwk'. rewrite <- (list_insert_id itemCodes i ic0 Hic0).
      by apply Forall2_insert. }
    destruct wk as [ic|ic now|ic now|ic now|ic now p|[p [e|]]|[p [e|]]];
      try done; try (by destruct Hwk); cbn [move]; rewrite Hi.
    - (* reads the clock *)
      apply IH; cbn; try done. apply Hins. by split.
    - (* loads a valid entry *)
      destruct Hwk as [-> Hnow].
      destruct (Hcached ic0) as (e & Hk & Hbound);
        [by eapply list_elem_of_lookup_2|].
      assert (GetPriceFor_step (AtLoad ic0 now) (world g0)
              = (AtReturn (price e, None), emit (EvLoad ic0) (world g0)))
        as ->.
      { cbn. unfold st_bind, prices_Load, get_maxAge. rewrite Hc, Hk. cbn.
        rewrite Hc.
        assert (Time_Before now (Time_Add (timestamp e) (maxAge (cache w)))
                = true) as ->
          by (apply Z.ltb_lt; unfold Time_Add; lia).
        done. }
      apply IH; cbn; try done.
      + rewrite CacheFacts.upstream_calls_app, Htr. cbn.
        by rewrite app_nil_r.
      + apply Hins. split; [done|]. by exists e.
    - (* appends its price *)
      apply IH; cbn; try done. by apply Hins.
    - (* has finished *)
      by apply IH. }
  destruct (Hgen (launch itemCodes w)) as (H1 & H2 & H3 & H4 & H5);
    try done.
  { cbn. apply Forall2_fmap_r, Forall_Forall2_diag, Forall_true. done. }
  split; [done|]. split; [done|]. split; [done|]. split; [done|].
  intros rs Hrs. unfold outcomes in Hrs. subst g.
  rewrite <- (mapM_fmap_Some_inv finished Done _ _ Hrs) in H5
    by (by intros [] ? [= <-]).
  by rewrite Forall2_fmap_r in H5.
Qed.

End Warm.

(** *** The statements at work on concrete caches *)

Lemma GetPricesFor_all_cached_witness :
  let w := Demo.warm 7%Z in
  (clock w < 9)%Z ∧
  quiet_before 9%Z Demo.interleaved ∧
  (∀ k, k ∈ ["apple"; "apple"] →
        ∃ e, prices (cache w) !! k = Some (any_PriceCacheEntry e) ∧
             (9 ≤ timestamp e + maxAge (cache w))%Z) ∧
  let g := play Demo.interleaved (launch ["apple"; "apple"] w) in
  cache (world g) = cache w ∧
  upstream (world g) = upstream w ∧
  upstream_calls (trace (world g)) = upstream_calls (trace w) ∧
  g_err g = None ∧
  ∀ rs, outcomes g = Some rs →
        Forall2 (served_from (prices (cache w))) ["apple"; "apple"] rs.
Proof.
  intros w.
  assert (H1 : (clock w < 9)%Z) by reflexivity.
  assert (H2 : quiet_before 9%Z Demo.interleaved)
    by (repeat constructor).
  assert (H3 : ∀ k, k ∈ ["apple"; "apple"] →
                 ∃ e, prices (cache w) !! k = Some (any_PriceCacheEntry e) ∧
                      (9 ≤ timestamp e + maxAge (cache w))%Z).
  { intros k Hk. exists {| price := 10%float; timestamp := 5%Z |}.
    assert (k = "apple") as ->.
    { apply list_elem_of_In in Hk. cbn in Hk.
      destruct Hk as [<-|[<-|[]]]; reflexivity. }
    split; [vm_compute; reflexivity|vm_compute; discriminate]. }
  split; [exact H1|]. split; [exact H2|]. split; [exact H3|].
  exact (GetPricesFor_all_cached ["apple"; "apple"] Demo.interleaved w 9%Z
           H1 H2 H3).
Defined.

Lemma GetPriceFor_other_keys_witness :
  "apple" ≠ "pear" ∧
  prices (cache (GetPriceFor "pear" (Demo.warm 7%Z)).2) !! "apple"
    = prices (cache (Demo.warm 7%Z)) !! "apple".
Proof.
  assert (H : "apple" ≠ "pear") by discriminate.
  split; [exact H|].
  exact (GetPriceFor_other_keys "pear" "apple" (Demo.warm 7%Z) H).
Defined.

Lemma GetPriceFor_foreign_value_witness :
  let w := Demo.poisoned in
  prices (cache w) !! "apple" = Some (any_string "ten") ∧
  (∀ e, any_string "ten" ≠ any_PriceCacheEntry e) ∧
  let w' := (GetPriceFor "apple" w).2 in
  (GetPriceFor "apple" w).1
    = (0%float, Some (errors_New "error when casting")) ∧
  cache w' = cache w ∧
  upstream w' = upstream w ∧
  upstream_calls (trace w') = upstream_calls (trace w) ∧
  (GetPriceFor "apple" (set_clock 9000%Z w')).1
    = (0%float, Some (errors_New "error when casting")).
Proof.
  intros w.
  assert (H1 : prices (cache w) !! "apple" = Some (any_string "ten"))
    by reflexivity.
  assert (H2 : ∀ e, any_string "ten" ≠ any_PriceCacheEntry e)
    by (intros e; discriminate).
  split; [exact H1|]. split; [exact H2|].
  exact (GetPriceFor_foreign_value "apple" w (any_string "ten") 9000%Z
           H1 H2).
Defined.

Lemma GetPriceFor_again_within_maxAge_witness :
  let w := Demo.cold in
  stale_or_absent "apple" w ∧
  upstream_answer "apple" w = ((10%float, None), 1) ∧
  (1004 < clock w + maxAge (cache w))%Z ∧
  let w1 := set_clock 1004%Z (GetPriceFor "apple" w).2 in
  (GetPriceFor "apple" w).1 = (10%float, None) ∧
  (GetPriceFor "apple" w1).1 = (10%float, None) ∧
  upstream_calls (trace (GetPriceFor "apple" w1).2)
    = upstream_calls (trace w) ++ ["apple"] ∧
  upstream (GetPriceFor "apple" w1).2 = 1.
Proof.
  intros w.
  assert (H1 : stale_or_absent "apple" w) by (left; reflexivity).
  assert (H2 : upstream_answer "apple" w = ((10%float, None), 1))
    by reflexivity.
  assert (H3 : (1004 < clock w + maxAge (cache w))%Z) by reflexivity.
  split; [exact H1|]. split; [exact H2|]. split; [exact H3|].
  exact (GetPriceFor_again_within_maxAge "apple" w 10%float 1 1004%Z
           H1 H2 H3).
Defined.

Lemma GetPriceFor_nonpositive_maxAge_witness :
  let w := Demo.uncached in
  (maxAge (cache w) ≤ 0)%Z ∧
  (prices (cache w) !! "apple" = None ∨
   ∃ e, prices (cache w) !! "apple" = Some (any_PriceCacheEntry e) ∧
        (timestamp e ≤ clock w)%Z) ∧
  upstream_calls (trace (GetPriceFor "apple" w).2)
    = upstream_calls (trace w) ++ ["apple"].
Proof.
  intros w.
  assert (H1 : (maxAge (cache w) ≤ 0)%Z) by (vm_compute; discriminate).
  assert (H2 : prices (cache w) !! "apple" = None ∨
               ∃ e, prices (cache w) !! "apple"
                      = Some (any_PriceCacheEntry e) ∧
                    (timestamp e ≤ clock w)%Z).
  { right. exists {| price := 10%float; timestamp := 5%Z |}.
    split; [vm_compute; reflexivity|vm_compute; discriminate]. }
  split; [exact H1|]. split; [exact H2|].
  exact (GetPriceFor_nonpositive_maxAge "apple" w H1 H2).
Defined.

Lemma GetPricesFor_other_keys_witness :
  ("apple" ∉ ["pear"; "bad"]) ∧
  let g := play Demo.interleaved (launch ["pear"; "bad"] (Demo.warm 7%Z)) in
  prices (cache (world g)) !! "apple"
    = prices (cache (Demo.warm 7%Z)) !! "apple".
Proof.
  assert (H : "apple" ∉ ["pear"; "bad"]).
  { intros Hin. apply list_elem_of_In in Hin. cbn in Hin.
    destruct Hin as [Heq|[Heq|[]]]; discriminate Heq. }
  split; [exact H|].
  exact (GetPricesFor_other_keys ["pear"; "bad"] Demo.interleaved
           (Demo.warm 7%Z) "apple" H).
Defined.

Lemma GetPricesFor_fair_schedule_witness :
  (∀ i, i < length ["apple"; "bad"] → 6 ≤ turns i (one_by_one 2)) ∧
  ∃ rs res err w',
    outcomes (play (one_by_one 2) (launch ["apple"; "bad"] Demo.cold))
      = Some rs ∧
    length rs = length ["apple"; "bad"] ∧
    GetPricesFor ["apple"; "bad"] (one_by_one 2) Demo.cold
      = Some ((res, err), w') ∧
    res ≡ₚ successes rs ∧
    (err = None ↔ failures rs = []).
Proof.
  assert (H : ∀ i, i < length ["apple"; "bad"] → 6 ≤ turns i (one_by_one 2)).
  { intros [|[|i]] Hi; cbn in *; lia. }
  split; [exact H|].
  exact (GetPricesFor_fair_schedule ["apple"; "bad"] (one_by_one 2)
           Demo.cold H).
Defined.

Lemma GetPricesFor_same_item_twice_witness :
  let w := Demo.cold in
  prices (cache w) !! "apple" = None ∧
  upstream_calls
    (trace (world (play alternating (launch ["apple"; "apple"] w))))
    = upstream_calls (trace w) ++ ["apple"; "apple"] ∧
  is_Some (GetPricesFor ["apple"; "apple"] alternating w).
Proof.
  intros w.
  assert (H : prices (cache w) !! "apple" = None) by reflexivity.
  split; [exact H|].
  exact (GetPricesFor_same_item_twice "apple" w H).
Defined.

Lemma GetPricesFor_evicts_fresh_entry_witness :
  let w := Demo.tiring_warm 2000%Z in
  let e := {| price := 10%float; timestamp := 5%Z |} in
  prices (cache w) !! "apple" = Some (any_PriceCacheEntry e) ∧
  ¬ valid (maxAge (cache w)) (clock w) e ∧
  upstream_answer "apple" w = ((10%float, None), 2) ∧
  PriceService_GetPriceFor (actualPriceService (cache w)) "apple" 2
    = ((0%float, Some (errors_New "boom")), 3) ∧
  ∃ w',
    GetPricesFor ["apple"; "apple"] second_overtakes w
      = Some (([10%float],
               Some (fmt_Errorf_v "getting price from service : "
                       (Error (errors_New "boom")))), w') ∧
    prices (cache w') !! "apple" = None ∧
    upstream_calls (trace w')
      = upstream_calls (trace w) ++ ["apple"; "apple"].
Proof.
  intros w e.
  assert (H1 : prices (cache w) !! "apple" = Some (any_PriceCacheEntry e))
    by (vm_compute; reflexivity).
  assert (H2 : ¬ valid (maxAge (cache w)) (clock w) e).
  { unfold valid. vm_compute. intros H. discriminate H. }
  assert (H3 : upstream_answer "apple" w = ((10%float, None), 2))
    by (vm_compute; reflexivity).
  assert (H4 : PriceService_GetPriceFor (actualPriceService (cache w))
                 "apple" 2
               = ((0%float, Some (errors_New "boom")), 3))
    by (vm_compute; reflexivity).
  split; [exact H1|]. split; [exact H2|]. split; [exact H3|].
  split; [exact H4|].
  exact (GetPricesFor_evicts_fresh_entry "apple" w e 10%float 0%float
           (errors_New "boom") 2 3 H1 H2 H3 H4).
Defined.

End CacheLaws.

(** ** Further properties of the starting revision *)

Module StarterLaws.
Import Starter.

Ltac st_unfold :=
  repeat (progress (cbn;
    unfold st_bind, st_ret, prices_Load, actualPriceService_GetPriceFor,
      prices_Store)).

Section WithService.

Context {ServiceState : Type}.
Implicit Types (w : @World ServiceState) (k : string)
  (g : @Group ServiceState) (ws : list Worker).

(** What each move of the scheduler does to the goroutine it runs: the
    hand-over of a price, of an error or of a panic, nothing at all, or an
    atomic action of the goroutine. *)
Lemma move_cases g i (wk : Worker) :
  workers g !! i = Some wk →
  (∃ p, wk = AtAppend p ∧
        move g i = {| world := world g; results := results g ++ [p];
                      g_err := g_err g;
                      workers := <[i := Done (Returns p None)]> (workers g) |})
  ∨ (∃ ic p e, wk = AtReturn ic (Returns p (Some e)) ∧
        move g i = {| world := world g; results := results g;
                      g_err := match g_err g with
                               | None => Some e
                               | Some f => Some f
                               end;
                      workers := <[i := Done (Returns p (Some e))]>
                                   (workers g) |})
  ∨ (∃ ic, wk = AtReturn ic Panics ∧
        move g i = {| world := world g; results := results g;
                      g_err := g_err g;
                      workers := <[i := Done Panics]> (workers g) |})
  ∨ ((∃ r, wk = Done r) ∧ move g i = g)
  ∨ (settled wk = [] ∧
     move g i = {| world := (worker_step wk (world g)).2;
                   results := results g; g_err := g_err g;
                   workers := <[i := (worker_step wk (world g)).1]>
                                (workers g) |}).
Proof.
  intros Hi. unfold move. rewrite Hi.
  destruct wk as [ic|ic|ic|ic p|ic [p [e|]|]|ic p|p|r].
  1-4, 6, 8: right; right; right; right; split; [done|];
             by destruct (worker_step _ _).
  - right. left. by exists ic, p, e.
  - right. right. left. by exists ic.
  - left. by exists p.
  - right. right. right. left. split; [by exists r|done].
Qed.

Lemma starter_settled_insert ws i (wk wk' : Worker) :
  ws !! i = Some wk → settled wk = [] →
  (<[i := wk']> ws) ≫= settled ≡ₚ settled wk' ++ (ws ≫= settled).
Proof.
  intros Hi Hwk.
  rewrite insert_take_drop by (eapply lookup_lt_Some; eassumption).
  rewrite <- (take_drop_middle ws i wk Hi) at 3.
  rewrite !bind_app, !bind_cons, Hwk. cbn.
  apply Permutation_app_swap_app.
Qed.

(** *** A price once stored is served for ever *)

Lemma worker_step_keeps k (p : float64) (wk : Worker) w :
  prices (cache w) !! k = Some (any_float64 p) →
  avoids k wk →
  prices (cache (worker_step wk w).2) !! k = Some (any_float64 p) ∧
  avoids k (worker_step wk w).1.
Proof.
  intros Hk Hwk.
  destruct wk as [ic|ic|ic|ic q|ic [q [e|]|]|ic q|q|r]; st_unfold;
    try done.
  - destruct (decide (ic = k)) as [->|Hne].
    + rewrite Hk. by st_unfold.
    + destruct (prices (cache w) !! ic) as [[|f|s]|]; by st_unfold.
  - destruct (prices (cache w) !! ic) as [[|f|s]|]; by st_unfold.
  - by destruct (PriceService_GetPriceFor _ _ _) as [[q [e|]] s].
  - split; [|done]. by rewrite lookup_insert_ne.
  - split; [|done]. by rewrite lookup_insert_ne.
Qed.

Lemma move_keeps k (p : float64) g i :
  prices (cache (world g)) !! k = Some (any_float64 p) →
  Forall (avoids k) (workers g) →
  prices (cache (world (move g i))) !! k = Some (any_float64 p) ∧
  Forall (avoids k) (workers (move g i)).
Proof.
  intros Hk Hws.
  destruct (workers g !! i) as [wk|] eqn:Hi;
    [|by unfold move; rewrite Hi].
  pose proof (Forall_lookup_1 _ _ _ _ Hws Hi) as Hwk.
  destruct (move_cases g i wk Hi)
    as [(q & -> & ->)|[(ic & q & e & -> & ->)|[(ic & -> & ->)
       |[[_ ->]|[_ ->]]]]]; cbn; try done;
    try (split; [done|]; by apply Forall_insert).
  destruct (worker_step_keeps k p wk (world g) Hk Hwk) as [H1 H2].
  split; [done|]. by apply Forall_insert.
Qed.

Lemma play_keeps k (p : float64) (sched : list nat) g :
  prices (cache (world g)) !! k = Some (any_float64 p) →
  Forall (avoids k) (workers g) →
  prices (cache (world (play sched g))) !! k = Some (any_float64 p).
Proof.
  revert g. induction sched as [|i sched IH]; intros g Hk Hws; [done|].
  destruct (move_keeps k p g i Hk Hws) as [H1 H2].
  by apply (IH (move g i)).
Qed.

Lemma GetPriceFor_keeps k k' (p : float64) w :
  prices (cache w) !! k = Some (any_float64 p) →
  prices (cache (GetPriceFor k' w).2) !! k = Some (any_float64 p).
Proof.
  intros Hk. unfold GetPriceFor. st_unfold.
  destruct (decide (k' = k)) as [->|Hne].
  - rewrite Hk. by st_unfold.
  - destruct (prices (cache w) !! k') as [[|f|s]|]; st_unfold; try done.
    destruct (PriceService_GetPriceFor _ _ _) as [[q [e|]] s]; st_unfold;
      [done|].
    by rewrite lookup_insert_ne.
Qed.

(** Once the store holds a price for [k], it holds that price for ever:
    through every sequence of single and batch lookups, for whatever items
    and under whatever schedules, a lookup for [k] returns the same price
    and does not reach the upstream service.  Nothing reads [maxAge]. *)
Theorem stored_price_served_for_ever k (p : float64) w
    (calls : list Call) :
  prices (cache w) !! k = Some (any_float64 p) →
  let w' := foldl perform w calls in
  prices (cache w') !! k = Some (any_float64 p) ∧
  GetPriceFor k w' = (Returns p None, emit (EvLoad k) w').
Proof.
  intros Hk w'.
  assert (prices (cache w') !! k = Some (any_float64 p)) as Hk'.
  { subst w'. revert w Hk.
    induction calls as [|c calls IH]; intros w Hk; [done|].
    cbn. apply IH. destruct c as [k'|ks sched]; cbn.
    - by apply GetPriceFor_keeps.
    - apply play_keeps; [done|]. cbn.
      by apply Forall_fmap, Forall_true. }
  split; [done|].
  unfold GetPriceFor, st_bind, prices_Load. by rewrite Hk'.
Qed.

(** *** The bare type assertion never panics *)

Lemma store_floats_insert (m : gmap string any) k (f : float64) :
  store_floats m → store_floats (<[k := any_float64 f]> m).
Proof.
  intros Hm k' v. rewrite lookup_insert. case_decide.
  - intros [= <-]. eauto.
  - apply Hm.
Qed.

Lemma worker_step_sound (wk : Worker) w :
  store_floats (prices (cache w)) → sound wk →
  store_floats (prices (cache (worker_step wk w).2)) ∧
  sound (worker_step wk w).1.
Proof.
  intros Hty Hwk.
  destruct wk as [ic|ic|ic|ic q|ic [q [e|]|]|ic q|q|r]; st_unfold;
    try done.
  - destruct (prices (cache w) !! ic) as [v|] eqn:Hv; st_unfold; [|done].
    destruct (Hty _ _ Hv) as [f ->]. by st_unfold.
  - destruct (prices (cache w) !! ic) as [v|] eqn:Hv; st_unfold; [|done].
    destruct (Hty _ _ Hv) as [f ->]. by st_unfold.
  - by destruct (PriceService_GetPriceFor _ _ _) as [[q [e|]] s].
  - split; [|done]. by apply store_floats_insert.
  - split; [|done]. by apply store_floats_insert.
Qed.

Lemma move_sound g i :
  store_floats (prices (cache (world g))) → Forall sound (workers g) →
  store_floats (prices (cache (world (move g i)))) ∧
  Forall sound (workers (move g i)).
Proof.
  intros Hty Hws.
  destruct (workers g !! i) as [wk|] eqn:Hi;
    [|by unfold move; rewrite Hi].
  pose proof (Forall_lookup_1 _ _ _ _ Hws Hi) as Hwk.
  destruct (move_cases g i wk Hi)
    as [(q & -> & ->)|[(ic & q & e & -> & ->)|[(ic & -> & ->)
       |[[_ ->]|[_ ->]]]]]; cbn; try done;
    try (split; [done|]; by apply Forall_insert).
  destruct (worker_step_sound wk (world g) Hty Hwk) as [H1 H2].
  split; [done|]. by apply Forall_insert.
Qed.

Lemma play_sound (sched : list nat) g :
  store_floats (prices (cache (world g))) → Forall sound (workers g) →
  store_floats (prices (cache (world (play sched g)))) ∧
  Forall sound (workers (play sched g)).
Proof.
  revert g. induction sched as [|i sched IH]; intros g Hty Hws; [done|].
  destruct (move_sound g i Hty Hws) as [H1 H2].
  by apply (IH (move g i)).
Qed.

Lemma GetPriceFor_sound k w :
  store_floats (prices (cache w)) →
  store_floats (prices (cache (GetPriceFor k w).2)) ∧
  (GetPriceFor k w).1 ≠ Panics.
Proof.
  intros Hty. unfold GetPriceFor. st_unfold.
  destruct (prices (cache w) !! k) as [v|] eqn:Hv; st_unfold.
  - destruct (Hty _ _ Hv) as [f ->]. by st_unfold.
  - destruct (PriceService_GetPriceFor _ _ _) as [[q [e|]] s]; st_unfold;
      [done|].
    split; [|done]. by apply store_floats_insert.
Qed.

Lemma launch_sound (itemCodes : list string) w :
  Forall sound (workers (launch itemCodes w)).
Proof. cbn. by apply Forall_fmap, Forall_true. Qed.

(** Starting from [NewTransparentCache] and using the cache only through
    its own lookups, every slot of [prices] holds a [float64]: the
    assertion [price.(float64)] never panics, neither in a single lookup
    nor in a goroutine of a batch. *)
Theorem assertion_never_panics (svc : PriceService) (age : Duration)
    (s : ServiceState) (calls : list Call) :
  let w := foldl perform (fresh svc age s) calls in
  store_floats (prices (cache w)) ∧
  (∀ k, (GetPriceFor k w).1 ≠ Panics) ∧
  (∀ ks sched rs, outcomes (play sched (launch ks w)) = Some rs →
                  existsb panicked rs = false).
Proof.
  intros w.
  assert (store_floats (prices (cache w))) as Hty.
  { subst w.
    assert (store_floats (prices (cache (fresh svc age s)))) as H0
      by (intros k v; cbn; by rewrite lookup_empty).
    revert H0. generalize (fresh svc age s).
    induction calls as [|c calls IH]; intros w0 H0; [done|].
    cbn. apply IH. destruct c as [k|ks sched]; cbn.
    - by apply GetPriceFor_sound.
    - by apply (play_sound sched (launch ks w0)), launch_sound. }
  split; [done|]. split.
  - intros k. by apply GetPriceFor_sound.
  - intros ks sched rs Hrs.
    destruct (play_sound sched (launch ks w) Hty (launch_sound ks w))
      as [_ Hws].
    unfold outcomes in Hrs.
    rewrite <- (mapM_fmap_Some_inv finished Done _ _ Hrs) in Hws
      by (by intros [] ? [= <-]).
    clear Hrs. induction rs as [|r rs IH]; [done|].
    apply Forall_cons in Hws as [Hr Hrs]. cbn.
    rewrite (IH Hrs). by destruct r.
Qed.

(** *** What the batch lookup returns *)

Lemma worker_step_unsettled (wk : Worker) w :
  settled wk = [] →
  prices_of (settled (worker_step wk w).1) = [] ∧
  errors_of (settled (worker_step wk w).1) = [].
Proof.
  destruct wk as [ic|ic|ic|ic q|ic [q [e|]|]|ic q|q|r]; st_unfold;
    try done.
  - by destruct (prices (cache w) !! ic) as [[|f|s]|].
  - by destruct (prices (cache w) !! ic) as [[|f|s]|].
  - by destruct (PriceService_GetPriceFor _ _ _) as [[q [e|]] s].
Qed.

Lemma outcomes_insert ws i (wk wk' : Worker) :
  ws !! i = Some wk → settled wk = [] →
  prices_of ((<[i := wk']> ws) ≫= settled)
    ≡ₚ prices_of (settled wk') ++ prices_of (ws ≫= settled) ∧
  errors_of ((<[i := wk']> ws) ≫= settled)
    ≡ₚ errors_of (settled wk') ++ errors_of (ws ≫= settled).
Proof.
  intros Hi Hwk. unfold prices_of, errors_of.
  split; by rewrite (starter_settled_insert _ _ _ _ Hi Hwk), omap_app.
Qed.

Lemma starter_move_consistent g i : consistent g → consistent (move g i).
Proof.
  intros (Hres & Hnone & Hsome).
  destruct (workers g !! i) as [wk|] eqn:Hi;
    [|by unfold move; rewrite Hi].
  destruct (move_cases g i wk Hi)
    as [(q & -> & ->)|[(ic & q & e & -> & ->)|[(ic & -> & ->)
       |[[_ ->]|[Hwk ->]]]]]; [| | |done|]; unfold consistent; cbn.
  - destruct (outcomes_insert _ _ _ (Done (Returns q None)) Hi eq_refl)
      as [Hp He]. cbn in Hp, He.
    split; [by rewrite Hp, <- Hres, Permutation_app_comm|]. split.
    + intros Hn. apply Permutation_nil_r. rewrite He. by rewrite Hnone.
    + intros e' He'. rewrite He. by apply Hsome.
  - destruct (outcomes_insert _ _ _ (Done (Returns q (Some e))) Hi eq_refl)
      as [Hp He]. cbn in Hp, He.
    split; [by rewrite Hp|]. split; [by destruct (g_err g)|].
    intros e' He'. rewrite He. apply elem_of_cons.
    destruct (g_err g) as [f|] eqn:Hf; injection He' as <-.
    + right. by apply Hsome.
    + by left.
  - destruct (outcomes_insert _ _ _ (Done Panics) Hi eq_refl)
      as [Hp He]. cbn in Hp, He.
    split; [by rewrite Hp|]. split.
    + intros Hn. apply Permutation_nil_r. rewrite He. by rewrite Hnone.
    + intros e' He'. rewrite He. by apply Hsome.
  - destruct (outcomes_insert _ _ _ (worker_step wk (world g)).1 Hi Hwk)
      as [Hp He].
    destruct (worker_step_unsettled wk (world g) Hwk) as [H1 H2].
    rewrite H1 in Hp. rewrite H2 in He. cbn in Hp, He.
    split; [by rewrite Hp|]. split.
    + intros Hn. apply Permutation_nil_r. rewrite He. by rewrite Hnone.
    + intros e' He'. rewrite He. by apply Hsome.
Qed.

Lemma starter_play_consistent (sched : list nat) g :
  consistent g → consistent (play sched g).
Proof.
  revert g. induction sched as [|i sched IH]; intros g Hg; [done|].
  apply (IH (move g i)), starter_move_consistent, Hg.
Qed.

Lemma starter_launch_consistent (itemCodes : list string) w :
  consistent (launch itemCodes w).
Proof.
  unfold consistent, launch. cbn.
  assert ((AtProbe <$> itemCodes) ≫= settled = []) as ->; [|done].
  induction itemCodes as [|ic itemCodes IH]; [done|]. cbn. exact IH.
Qed.

Lemma starter_move_workers_length g i :
  length (workers (move g i)) = length (workers g).
Proof.
  destruct (workers g !! i) as [wk|] eqn:Hi;
    [|by unfold move; rewrite Hi].
  destruct (move_cases g i wk Hi)
    as [(q & -> & ->)|[(ic & q & e & -> & ->)|[(ic & -> & ->)
       |[[_ ->]|[_ ->]]]]]; cbn; by rewrite ?length_insert.
Qed.

Lemma starter_play_workers_length (sched : list nat) g :
  length (workers (play sched g)) = length (workers g).
Proof.
  revert g. induction sched as [|i sched IH]; intros g; [done|].
  change (play (i :: sched) g) with (play sched (move g i)).
  by rewrite IH, starter_move_workers_length.
Qed.

Lemma all_prices (rs : list Outcome) :
  existsb panicked rs = false → errors_of rs = [] →
  length (prices_of rs) = length rs.
Proof.
  unfold prices_of, errors_of.
  induction rs as [|[p [e|]|] rs IH]; cbn; try done.
  intros Hp He. by rewrite IH.
Qed.

(** When all goroutines have finished without a panic, the batch returns
    either no error and a permutation of the prices of all its lookups, one
    per item code, or the error of one of the lookups that failed and an
    empty slice: the prices collected from the lookups that succeeded are
    not handed back. *)
Theorem GetPricesFor_result (itemCodes : list string) (sched : list nat) w
    (rs : list Outcome) :
  outcomes (play sched (launch itemCodes w)) = Some rs →
  existsb panicked rs = false →
  ∃ res err w',
    GetPricesFor itemCodes sched w = Some ((res, err), w') ∧
    match err with
    | None =>
        errors_of rs = [] ∧ res ≡ₚ prices_of rs ∧
        length res = length itemCodes
    | Some e => e ∈ errors_of rs ∧ res = []
    end.
Proof.
  intros Hrs Hpanic.
  destruct (starter_play_consistent sched _ (starter_launch_consistent itemCodes w))
    as (Hres & Hnone & Hsome).
  assert (workers (play sched (launch itemCodes w)) ≫= settled = rs)
    as Hset.
  { unfold outcomes in Hrs.
    rewrite <- (mapM_fmap_Some_inv finished Done _ _ Hrs)
      by (by intros [] ? [= <-]).
    clear. induction rs as [|r rs IH]; [done|]. cbn. by rewrite IH. }
  rewrite Hset in Hres, Hnone, Hsome.
  unfold GetPricesFor. cbv zeta. rewrite Hrs, Hpanic.
  destruct (g_err _) as [e|] eqn:He.
  - eexists _, _, _. split; [reflexivity|]. split; [by apply Hsome|done].
  - eexists _, _, _. split; [reflexivity|].
    split; [by apply Hnone|]. split; [done|].
    rewrite Hres, all_prices by auto.
    rewrite <- (length_mapM _ _ _ Hrs), starter_play_workers_length.
    cbn. by rewrite length_fmap.
Qed.

End WithService.

(** *** The statements at work on concrete caches *)

Lemma stored_price_served_for_ever_witness :
  let w := Demo.starter_warm in
  prices (cache w) !! "apple" = Some (any_float64 10%float) ∧
  let w' := foldl perform w Demo.starter_calls in
  prices (cache w') !! "apple" = Some (any_float64 10%float) ∧
  GetPriceFor "apple" w' = (Returns 10%float None, emit (EvLoad "apple") w').
Proof.
  intros w.
  assert (H : prices (cache w) !! "apple" = Some (any_float64 10%float))
    by (vm_compute; reflexivity).
  split; [exact H|].
  exact (stored_price_served_for_ever "apple" 10%float w Demo.starter_calls
           H).
Defined.

Lemma GetPricesFor_result_witness :
  let rs := [Returns 10%float None;
             Returns 0%float
               (Some (errors_New "getting price from service : boom"))] in
  outcomes (play Demo.starter_turns
              (launch ["apple"; "bad"] Demo.starter_cold)) = Some rs ∧
  existsb panicked rs = false ∧
  ∃ res err w',
    GetPricesFor ["apple"; "bad"] Demo.starter_turns Demo.starter_cold
      = Some ((res, err), w') ∧
    match err with
    | None =>
        errors_of rs = [] ∧ res ≡ₚ prices_of rs ∧
        length res = length ["apple"; "bad"]
    | Some e => e ∈ errors_of rs ∧ res = []
    end.
Proof.
  intros rs.
  assert (H1 : outcomes (play Demo.starter_turns
                           (launch ["apple"; "bad"] Demo.starter_cold))
               = Some rs) by (vm_compute; reflexivity).
  assert (H2 : existsb panicked rs = false) by reflexivity.
  split; [exact H1|]. split; [exact H2|].
  exact (GetPricesFor_result ["apple"; "bad"] Demo.starter_turns
           Demo.starter_cold rs H1 H2).
Defined.

End StarterLaws.
